(** * Yves: a shallow embedding of the MITM proxy's dataplane

    The development follows the Go sources of [rhaidiz/yves]:
    - [websocket.go]: the RFC 6455 frame codec ([WebsocketFragment.Write],
      [ReadWebsocketFragment], [xorEncrypt]), the accept key
      ([computeAcceptKey]), the upgrade test ([isWebSocketRequest]), the
      handshake and the relay pump ([interceptWebsocket]);
    - [cert.go]: the per-host certificate cache ([getCert], [GenerateCert]);
    - [proxy.go]: request forwarding ([forwardReq]).

    Conventions.  Go integers are modelled as [Z] with the conversions
    written out ([to_byte] is Go's [byte(x)]).  A Go call either returns a
    value, returns a non-nil [error], or panics: this is the type [res].
    Code working on a reader, a writer or the process-wide state is a
    function [S -> S * res A]. *)

From Stdlib Require Import ZArith Lia Ascii String.
From stdpp Require Import base option list gmap strings.

Local Open Scope Z_scope.

(** ** Go runtime: panics, errors and results *)

Inductive panic : Type :=
  | DivideByZero          (* integer divide by zero *)
  | IndexOutOfRange       (* index out of range *)
  | NilMapAssignment      (* assignment to entry in nil map *)
  | NilDereference        (* invalid memory address or nil pointer dereference *)
  | InterfaceConversion.  (* failed type assertion x.(T) *)

Inductive error : Type :=
  | ErrorMaskKeyLength    (* "mask key length must be exactly 4 bytes" *)
  | ErrWritingHeader      (* "writing header to the writer" *)
  | ErrUpgrading          (* "upgrading connection" *)
  | ErrNotCA              (* "CA Certificate is not really a CA." *)
  | ErrSerialNumber       (* "Failed to generate serial number: ..." *)
  | ErrInvalidControlChar (* "net/url: invalid control character in URL" *)
  | EOF                   (* io.EOF *)
  | ErrOther (code : nat). (* any other error value of a collaborator *)

Global Instance panic_eq_dec : EqDecision panic.
Proof. solve_decision. Defined.
Global Instance error_eq_dec : EqDecision error.
Proof. solve_decision. Defined.

Inductive res (A : Type) : Type :=
  | Val (a : A)
  | Err (e : error)
  | Panicked (p : panic).
Arguments Val {A} a.
Arguments Err {A} e.
Arguments Panicked {A} p.

(** Stateful Go code: state in, state out, and how the call ended. *)
Definition M (S A : Type) : Type := S -> S * res A.

Definition ret {S A} (a : A) : M S A := fun s => (s, Val a).
Definition fail {S A} (e : error) : M S A := fun s => (s, Err e).
Definition lift {S A} (r : res A) : M S A := fun s => (s, r).

Definition bind {S A B} (m : M S A) (k : A -> M S B) : M S B :=
  fun s =>
    match m s with
    | (s', Val a) => k a s'
    | (s', Err e) => (s', Err e)
    | (s', Panicked p) => (s', Panicked p)
    end.

Notation "'let*' x ':=' m 'in' k" := (bind m (fun x => k))
  (at level 10, x pattern, m at level 100, k at level 200).

(** ** Bytes and integer conversions *)

Abbreviation byte := Z.

(** [byte(x)] for an integer [x]: the low eight bits. *)
Definition to_byte (x : Z) : byte := x mod 256.

Definition is_uint64 (n : Z) : Prop := 0 <= n < 2 ^ 64.

Definition len {A} (l : list A) : Z := Z.of_nat (length l).

(** ** websocket.go: constants *)

Definition finalBit : Z := 128.
Definition rsv1Bit : Z := 64.
Definition rsv2Bit : Z := 32.
Definition rsv3Bit : Z := 16.
Definition maskBit : Z := 128.

Definition ContinuationFrame : Z := 0.
Definition TextMessage : Z := 1.
Definition BinaryMessage : Z := 2.
Definition CloseMessage : Z := 8.
Definition PingMessage : Z := 9.
Definition PongMessage : Z := 10.

(** A websocket frame as per RFC 6455 section 5.2.  [OpCode] is a Go [int],
    [PayloadLength] a [uint64], [Key] and [Data] are byte slices. *)
Record WebsocketFragment : Type := {
  FinBit : bool;
  Rsv1 : bool;
  Rsv2 : bool;
  Rsv3 : bool;
  OpCode : Z;
  MaskBit : bool;
  PayloadLength : Z;
  Key : list byte;
  Data : list byte
}.

(** ** xorEncrypt

    [encrypted := make([]byte, len(data))], then for each index [i] and
    byte [b] of [data]: [encrypted[i] = b ^ key[i%keyLen]].  The remainder
    panics when [keyLen] is zero; the loop body is not entered on empty
    data. *)
Fixpoint xorEncrypt_loop (i : nat) (data key encrypted : list byte)
  : res (list byte) :=
  match data with
  | [] => Val encrypted
  | b :: data' =>
      let keyLen := length key in
      if Nat.eqb keyLen 0 then Panicked DivideByZero
      else
        match key !! (i mod keyLen)%nat with
        | None => Panicked IndexOutOfRange
        | Some k => xorEncrypt_loop (S i) data' key (<[i := Z.lxor b k]> encrypted)
        end
  end.

Definition xorEncrypt (data key : list byte) : res (list byte) :=
  xorEncrypt_loop 0 data key (replicate (length data) 0).

(** ** io.Writer *)

(** [io_Write w p] is [w.Write(p)]: the sink afterwards and the error, if
    any. *)
Class Writer (W : Type) : Type := io_Write : W -> list byte -> W * option error.

(** [bytes.Buffer]: the bytes written so far; writing appends and never
    fails. *)
Definition Buffer : Type := list byte.
Global Instance Buffer_Writer : Writer Buffer := fun buf p => (buf ++ p, None).

(** A sink whose every write fails without accepting a byte. *)
Inductive BrokenPipe : Type := Broken.
Global Instance BrokenPipe_Writer : Writer BrokenPipe :=
  fun w _ => (w, Some (ErrOther 32)).

(** ** WebsocketFragment.Write *)

Definition Write {W} `{Writer W} (frame : WebsocketFragment) : M W unit :=
  fun w =>
  let header : list byte := [] in
  let firstByte : byte := 0 in
  let firstByte := if FinBit frame then Z.lor firstByte finalBit else firstByte in
  let firstByte := if Rsv1 frame then Z.lor firstByte rsv1Bit else firstByte in
  let firstByte := if Rsv2 frame then Z.lor firstByte rsv2Bit else firstByte in
  let firstByte := if Rsv3 frame then Z.lor firstByte rsv3Bit else firstByte in
  let firstByte := Z.lor firstByte (to_byte (OpCode frame)) in
  let header := header ++ [firstByte] in
  let secondByte : byte := 0 in
  let secondByte := if MaskBit frame then Z.lor secondByte maskBit else secondByte in
  let payloadLength := PayloadLength frame in
  let header :=
    if payloadLength <? 126 then
      let secondByte := Z.lor secondByte (to_byte payloadLength) in
      header ++ [secondByte]
    else if payloadLength <? 65536 then
      let secondByte := Z.lor secondByte 126 in
      header ++ [secondByte; to_byte (payloadLength ≫ 8); to_byte payloadLength]
    else
      let secondByte := Z.lor secondByte 127 in
      header ++ [secondByte;
                 to_byte (payloadLength ≫ 56); to_byte (payloadLength ≫ 48);
                 to_byte (payloadLength ≫ 40); to_byte (payloadLength ≫ 32);
                 to_byte (payloadLength ≫ 24); to_byte (payloadLength ≫ 16);
                 to_byte (payloadLength ≫ 8); to_byte payloadLength] in
  if MaskBit frame && negb (Nat.eqb (length (Key frame)) 4) then
    (w, Err ErrorMaskKeyLength)
  else
    let header := if MaskBit frame then header ++ Key frame else header in
    match xorEncrypt (Data frame) (Key frame) with
    | Panicked p => (w, Panicked p)
    | Err e => (w, Err e)
    | Val encryptedData =>
        let header := header ++ encryptedData in
        match io_Write w header with
        | (w', Some _) => (w', Err ErrWritingHeader)
        | (w', None) => (w', Val tt)
        end
    end.

(** ** bufio.Reader *)

(** A buffered reader over a source: the bytes the source still delivers,
    and the error it reports once they are consumed ([io.EOF] for a
    closed stream). *)
Record Reader : Type := {
  pending : list byte;
  srcErr : error
}.

Definition NewReader (src : list byte) : Reader :=
  {| pending := src; srcErr := EOF |}.

Definition ReadByte : M Reader byte :=
  fun b =>
    match pending b with
    | [] => (b, Err (srcErr b))
    | c :: rest => ({| pending := rest; srcErr := srcErr b |}, Val c)
    end.

(** [b.Peek(1)]: looks at the next byte without consuming it. *)
Definition Peek1 : M Reader byte :=
  fun b =>
    match pending b with
    | [] => (b, Err (srcErr b))
    | c :: _ => (b, Val c)
    end.

(** ** encoding/binary, big endian *)

Definition BigEndian_Uint16 (b : list byte) : res Z :=
  match b with
  | b0 :: b1 :: _ => Val (Z.lor b1 (b0 ≪ 8))
  | _ => Panicked IndexOutOfRange
  end.

Definition BigEndian_Uint64 (b : list byte) : res Z :=
  match b with
  | b0 :: b1 :: b2 :: b3 :: b4 :: b5 :: b6 :: b7 :: _ =>
      Val (Z.lor (Z.lor (Z.lor (Z.lor (Z.lor (Z.lor (Z.lor
             b7 (b6 ≪ 8)) (b5 ≪ 16)) (b4 ≪ 24)) (b3 ≪ 32))
             (b2 ≪ 40)) (b1 ≪ 48)) (b0 ≪ 56))
  | _ => Panicked IndexOutOfRange
  end.

(** ** ReadWebsocketFragment *)

(** [for i := 0; i < n; i++ { l, err := b.ReadByte(); ...; lenn = append(lenn, l) }] *)
Fixpoint readLenn (n : nat) (lenn : list byte) : M Reader (list byte) :=
  match n with
  | O => ret lenn
  | S n' => let* l := ReadByte in readLenn n' (lenn ++ [l])
  end.

(** [for i := 0; i < 4; i++ { k, err := b.ReadByte(); ...; key[i] = k }] *)
Fixpoint readKey (n : nat) (i : nat) (key : list byte) : M Reader (list byte) :=
  match n with
  | O => ret key
  | S n' => let* k := ReadByte in readKey n' (S i) (<[i := k]> key)
  end.

(** [for i := 0; uint64(i) < payloadLength; i++ { c, err := b.ReadByte(); ...;
    data = append(data, c) }].  The recursion is on the bytes the source
    still holds: each turn of the loop consumes one. *)
Fixpoint readData_loop (payloadLength i : Z) (data src : list byte) (e : error)
  : Reader * res (list byte) :=
  if i <? payloadLength then
    match src with
    | [] => ({| pending := []; srcErr := e |}, Err e)
    | c :: rest => readData_loop payloadLength (i + 1) (data ++ [c]) rest e
    end
  else ({| pending := src; srcErr := e |}, Val data).

Definition readData (payloadLength : Z) : M Reader (list byte) :=
  fun b => readData_loop payloadLength 0 [] (pending b) (srcErr b).

Definition ReadWebsocketFragment : M Reader WebsocketFragment :=
  let* byteRead := ReadByte in
  let finBit := negb (Z.land byteRead finalBit =? 0) in
  let rsv1 := negb (Z.land byteRead rsv1Bit =? 0) in
  let rsv2 := negb (Z.land byteRead rsv2Bit =? 0) in
  let rsv3 := negb (Z.land byteRead rsv3Bit =? 0) in
  let opCode := Z.land byteRead 15 in
  let* byteRead := ReadByte in
  let mask := negb (Z.land byteRead maskBit =? 0) in
  let payloadLength := Z.land byteRead 127 in
  let* payloadLength :=
    if payloadLength =? 126 then
      let* lenn1 := ReadByte in
      let* lenn2 := ReadByte in
      lift (BigEndian_Uint16 ([] ++ [lenn1; lenn2]))
    else if payloadLength =? 127 then
      let* lenn := readLenn 8 [] in
      lift (BigEndian_Uint64 lenn)
    else ret payloadLength in
  let key := replicate 4 0 in
  let* key := if mask then readKey 4 0 key else ret key in
  let* data := readData payloadLength in
  let* data := lift (xorEncrypt data key) in
  ret {| FinBit := finBit; Rsv1 := rsv1; Rsv2 := rsv2; Rsv3 := rsv3;
         OpCode := opCode; MaskBit := mask; PayloadLength := payloadLength;
         Key := key; Data := data |}.

(** ** crypto/sha1 and encoding/base64

    Both are Go's standard library.  [sha1_Sum] is SHA-1 as FIPS 180-4
    defines it (which [crypto/sha1] implements), on 32-bit words held in
    [Z]; [EncodeToString] is [base64.StdEncoding.EncodeToString] of
    RFC 4648 section 4, with padding. *)

Definition w32 (x : Z) : Z := x mod 2 ^ 32.

Definition rotl32 (n x : Z) : Z := w32 (Z.lor (x ≪ n) (x ≫ (32 - n))).

Definition not32 (x : Z) : Z := Z.lxor x 0xFFFFFFFF.

(** The message followed by the bit 1, zeros up to 56 modulo 64 bytes, and
    the length in bits as eight big-endian bytes. *)
Definition be_bytes8 (n : Z) : list byte :=
  [to_byte (n ≫ 56); to_byte (n ≫ 48); to_byte (n ≫ 40); to_byte (n ≫ 32);
   to_byte (n ≫ 24); to_byte (n ≫ 16); to_byte (n ≫ 8); to_byte n].

Definition be_bytes4 (n : Z) : list byte :=
  [to_byte (n ≫ 24); to_byte (n ≫ 16); to_byte (n ≫ 8); to_byte n].

Definition sha1_pad (msg : list byte) : list byte :=
  let l := length msg in
  let zeros := ((64 - ((l + 9) mod 64)) mod 64)%nat in
  msg ++ [0x80] ++ replicate zeros 0 ++ be_bytes8 (8 * Z.of_nat l).

Fixpoint be_words (n : nat) (bs : list byte) : list Z :=
  match n, bs with
  | S n', b0 :: b1 :: b2 :: b3 :: rest =>
      Z.lor (Z.lor (Z.lor (b0 ≪ 24) (b1 ≪ 16)) (b2 ≪ 8)) b3 :: be_words n' rest
  | _, _ => []
  end.

(** The message schedule, most recent word first: [W_t] is the rotation of
    [W_(t-3) xor W_(t-8) xor W_(t-14) xor W_(t-16)]. *)
Fixpoint sha1_schedule (n : nat) (recent : list Z) : list Z :=
  match n with
  | O => recent
  | S n' =>
      let w := rotl32 1 (Z.lxor (Z.lxor (Z.lxor (recent !!! 2%nat) (recent !!! 7%nat))
                                        (recent !!! 13%nat)) (recent !!! 15%nat)) in
      sha1_schedule n' (w :: recent)
  end.

Definition sha1_f (t : nat) (b c d : Z) : Z :=
  if (t <? 20)%nat then Z.lor (Z.land b c) (Z.land (not32 b) d)
  else if (t <? 40)%nat then Z.lxor (Z.lxor b c) d
  else if (t <? 60)%nat then Z.lor (Z.lor (Z.land b c) (Z.land b d)) (Z.land c d)
  else Z.lxor (Z.lxor b c) d.

Definition sha1_K (t : nat) : Z :=
  if (t <? 20)%nat then 0x5A827999
  else if (t <? 40)%nat then 0x6ED9EBA1
  else if (t <? 60)%nat then 0x8F1BBCDC
  else 0xCA62C1D6.

Definition sha1_state : Type := (Z * Z * Z * Z * Z)%type.

Fixpoint sha1_rounds (t : nat) (ws : list Z) (s : sha1_state) : sha1_state :=
  match ws with
  | [] => s
  | w :: ws' =>
      let '(a, b, c, d, e) := s in
      let temp := w32 (rotl32 5 a + sha1_f t b c d + e + sha1_K t + w) in
      sha1_rounds (S t) ws' (temp, a, rotl32 30 b, c, d)
  end.

Definition sha1_block (h : sha1_state) (block : list byte) : sha1_state :=
  let ws := rev (sha1_schedule 64 (rev (be_words 16 block))) in
  let '(h0, h1, h2, h3, h4) := h in
  let '(a, b, c, d, e) := sha1_rounds 0 ws h in
  (w32 (h0 + a), w32 (h1 + b), w32 (h2 + c), w32 (h3 + d), w32 (h4 + e)).

Fixpoint sha1_blocks (n : nat) (h : sha1_state) (bs : list byte) : sha1_state :=
  match n with
  | O => h
  | S n' => sha1_blocks n' (sha1_block h (take 64 bs)) (drop 64 bs)
  end.

Definition sha1_init : sha1_state :=
  (0x67452301, 0xEFCDAB89, 0x98BADCFE, 0x10325476, 0xC3D2E1F0).

Definition sha1_Sum (msg : list byte) : list byte :=
  let padded := sha1_pad msg in
  let '(h0, h1, h2, h3, h4) :=
    sha1_blocks (length padded / 64) sha1_init padded in
  be_bytes4 h0 ++ be_bytes4 h1 ++ be_bytes4 h2 ++ be_bytes4 h3 ++ be_bytes4 h4.

(** [hash.Hash] as [sha1.New()] returns it: [Write] feeds bytes and never
    fails, [Sum(b)] appends the digest of everything fed so far to [b]. *)
Record Hash : Type := { fed : list byte }.

Definition sha1_New : Hash := {| fed := [] |}.
Definition Hash_Write (h : Hash) (p : list byte) : Hash := {| fed := fed h ++ p |}.
Definition Hash_Sum (h : Hash) (b : list byte) : list byte := b ++ sha1_Sum (fed h).

Definition encodeStd : string :=
  "ABCDEFGHIJKLMNOPQRSTUVWXYZabcdefghijklmnopqrstuvwxyz0123456789+/".

Definition encodeStd_at (i : Z) : Ascii.ascii :=
  match String.get (Z.to_nat i) encodeStd with
  | Some c => c
  | None => "="%char
  end.

Fixpoint EncodeToString (src : list byte) : string :=
  match src with
  | [] => ""
  | [b0] =>
      let v := b0 ≪ 16 in
      String (encodeStd_at (Z.land (v ≫ 18) 63))
        (String (encodeStd_at (Z.land (v ≫ 12) 63)) "==")
  | [b0; b1] =>
      let v := Z.lor (b0 ≪ 16) (b1 ≪ 8) in
      String (encodeStd_at (Z.land (v ≫ 18) 63))
        (String (encodeStd_at (Z.land (v ≫ 12) 63))
          (String (encodeStd_at (Z.land (v ≫ 6) 63)) "="))
  | b0 :: b1 :: b2 :: rest =>
      let v := Z.lor (Z.lor (b0 ≪ 16) (b1 ≪ 8)) b2 in
      String (encodeStd_at (Z.land (v ≫ 18) 63))
        (String (encodeStd_at (Z.land (v ≫ 12) 63))
          (String (encodeStd_at (Z.land (v ≫ 6) 63))
            (String (encodeStd_at (Z.land v 63)) (EncodeToString rest))))
  end.

(** [[]byte(s)] *)
Fixpoint bytes_of_string (s : string) : list byte :=
  match s with
  | EmptyString => []
  | String c s' => Z.of_N (Ascii.N_of_ascii c) :: bytes_of_string s'
  end.

(** ** computeAcceptKey *)

Definition keyGUID : list byte := bytes_of_string "258EAFA5-E914-47DA-95CA-C5AB0DC85B11".

Definition computeAcceptKey (key : string) : string :=
  let h := sha1_New in
  let h := Hash_Write h (bytes_of_string key) in
  let h := Hash_Write h keyGUID in
  EncodeToString (Hash_Sum h []).

(** ** net/http values

    [http.Header] is a [map[string][]string]; indexing a missing name
    gives the nil slice. *)
Abbreviation Header := (gmap string (list string)).

Definition Header_index (h : Header) (name : string) : list string :=
  default [] (h !! name).

(** [header.Add(name, value)] with an already canonical name. *)
Definition Header_Add (h : Header) (name value : string) : Header :=
  <[name := Header_index h name ++ [value]]> h.

Definition Header_Set (h : Header) (name value : string) : Header :=
  <[name := [value]]> h.

Record URL : Type := {
  Scheme : string;
  URL_Host : string;
  Path : string
}.

(** [Req_URL] stands for the pointer field [URL], which [net/http] sets on
    every request it hands over. *)
Record Request : Type := {
  Method : string;
  RequestURI : string;
  Host : string;
  Req_URL : URL;
  Req_Header : Header
}.

Record Response : Type := {
  StatusCode : Z;
  Resp_Header : Header
}.

(** ** package strings, on ASCII text

    [TrimSpace] and [EqualFold] follow Unicode in Go; header values are
    treated here as ASCII: the white space is tab, line feed, vertical tab,
    form feed, carriage return and space, and folding maps [A-Z] to
    [a-z]. *)
Definition is_space (c : ascii) : bool :=
  let n := nat_of_ascii c in
  ((9 <=? n) && (n <=? 13) || (n =? 32))%nat.

Fixpoint trim_left (s : list ascii) : list ascii :=
  match s with
  | c :: s' => if is_space c then trim_left s' else s
  | [] => []
  end.

Definition TrimSpace (s : string) : string :=
  string_of_list_ascii
    (rev (trim_left (rev (trim_left (list_ascii_of_string s))))).

(** [strings.Split(s, ",")]: always at least one piece. *)
Fixpoint Split_comma (s : string) : list string :=
  match s with
  | EmptyString => [EmptyString]
  | String c s' =>
      let pieces := Split_comma s' in
      if Ascii.eqb c ","%char then EmptyString :: pieces
      else
        match pieces with
        | piece :: more => String c piece :: more
        | [] => [String c EmptyString]
        end
  end.

Definition fold_ascii (c : ascii) : ascii :=
  let n := nat_of_ascii c in
  if ((65 <=? n) && (n <=? 90))%nat then ascii_of_nat (n + 32) else c.

Fixpoint EqualFold (s t : string) : bool :=
  match s, t with
  | EmptyString, EmptyString => true
  | String a s', String b t' => Ascii.eqb (fold_ascii a) (fold_ascii b) && EqualFold s' t'
  | _, _ => false
  end.

(** ** headerContains and isWebSocketRequest *)

Definition headerContains (header : Header) (name value : string) : bool :=
  existsb
    (fun v => existsb (fun s => EqualFold value (TrimSpace s)) (Split_comma v))
    (Header_index header name).

Definition isWebSocketRequest (r : Request) : bool :=
  headerContains (Req_Header r) "Connection" "upgrade" &&
  headerContains (Req_Header r) "Upgrade" "websocket".

(** ** The two connections of a relay

    What the proxy has written to each peer, whether writing to the client
    fails, whether dialling the target fails, what [http.ReadResponse]
    obtains from the target, and the random bytes [crypto/rand] still
    holds. *)
Inductive wire : Type :=
  | WireResponse (r : Response)
  | WireRequest (r : Request).

Record Net : Type := {
  toClient : list wire;
  clientWriteErr : option error;
  dialErr : option error;
  toTarget : list wire;
  targetAnswer : error + Z;
  entropy : list byte
}.

(** [key := make([]byte, 16); rand.Read(key)] and its base64 text. *)
Definition generateWebSocketKey : M Net string :=
  fun n =>
    let key := take 16 (entropy n ++ replicate 16 0) in
    ({| toClient := toClient n; clientWriteErr := clientWriteErr n;
        dialErr := dialErr n; toTarget := toTarget n;
        targetAnswer := targetAnswer n; entropy := drop 16 (entropy n) |},
     Val (EncodeToString key)).

Definition Response_Write_client (r : Response) : M Net unit :=
  fun n =>
    match clientWriteErr n with
    | Some e => (n, Err e)
    | None =>
        ({| toClient := toClient n ++ [WireResponse r];
            clientWriteErr := clientWriteErr n; dialErr := dialErr n;
            toTarget := toTarget n; targetAnswer := targetAnswer n;
            entropy := entropy n |}, Val tt)
    end.

(** [request.Write(targetSiteConn)]; the source drops its error. *)
Definition Request_Write_target (r : Request) : M Net unit :=
  fun n =>
    ({| toClient := toClient n; clientWriteErr := clientWriteErr n;
        dialErr := dialErr n; toTarget := toTarget n ++ [WireRequest r];
        targetAnswer := targetAnswer n; entropy := entropy n |}, Val tt).

Definition ReadResponse_target : M Net Z :=
  fun n =>
    match targetAnswer n with
    | inl e => (n, Err e)
    | inr status => (n, Val status)
    end.

(** [s[0]] on a slice of strings. *)
Definition index0 (s : list string) : res string :=
  match s with
  | [] => Panicked IndexOutOfRange
  | x :: _ => Val x
  end.

(** ** websocketHandshake *)

Definition websocketHandshake (req : Request) : M Net unit :=
  let* secWebsocketKey := lift (index0 (Header_index (Req_Header req) "Sec-Websocket-Key")) in
  let secWebsocketAccept := computeAcceptKey secWebsocketKey in
  let response := {| StatusCode := 101; Resp_Header := ∅ |} in
  let response :=
    {| StatusCode := 101;
       Resp_Header :=
         Header_Add (Header_Add (Header_Add (Resp_Header response)
           "Sec-Websocket-Accept" secWebsocketAccept)
           "Connection" "Upgrade")
           "Upgrade" "websocket" |} in
  let* _ := Response_Write_client response in
  let header : Header := ∅ in
  let header := Header_Set header "Connection" "Upgrade" in
  let header := Header_Set header "Upgrade" "websocket" in
  (* Header.Set stores under the canonical name *)
  let* websocketKey := generateWebSocketKey in
  let header := Header_Set header "Sec-Websocket-Key" websocketKey in
  let header := Header_Set header "Sec-Websocket-Version" "13" in
  let request :=
    {| Method := "GET"; RequestURI := ""; Host := "";
       Req_URL := {| Scheme := "ws"; URL_Host := "127.0.0.1"; Path := "" |};
       Req_Header := header |} in
  let* _ := Request_Write_target request in
  let* status := ReadResponse_target in
  if negb (status =? 101) then fail ErrUpgrading else ret tt.

(** ** serveWebsocket and its call site in ServeHTTP *)

Inductive served : Type :=
  | NotUpgrade        (* the request is not a websocket upgrade *)
  | DialFailed        (* connectDial returned an error: plain return *)
  | HandshakeFailed (e : error)  (* logged, plain return *)
  | Relaying.         (* proxyWebsocket is entered *)

Definition connectDial (addr : string) : M Net unit :=
  fun n => match dialErr n with Some e => (n, Err e) | None => (n, Val tt) end.

Definition serveWebsocket (req : Request) : M Net served :=
  fun n =>
    match connectDial (Host req) n with
    | (n, Err _) => (n, Val DialFailed)
    | (n, Panicked p) => (n, Panicked p)
    | (n, Val _) =>
        match websocketHandshake req n with
        | (n, Err e) => (n, Val (HandshakeFailed e))
        | (n, Panicked p) => (n, Panicked p)
        | (n, Val _) => (n, Val Relaying)
        end
    end.

(** [if isWebSocketRequest(req) { p.serveWebsocket(...) }] *)
Definition serveIfWebsocket (req : Request) : M Net served :=
  if isWebSocketRequest req then serveWebsocket req else ret NotUpgrade.

(** ** interceptWebsocket

    One turn of the [for] loop on the buffered source and the sink.  The
    loop has no [break] and no [return]: a turn ends in [continue], by
    falling off the end of the body, or in a panic.  A handler may return
    the nil fragment, on which [Write] dereferences nil. *)
Definition Handler : Type := option (WebsocketFragment -> option WebsocketFragment).

Inductive turn : Type :=
  | Continue   (* the next turn of the loop follows *)
  | Exit.      (* the loop is left *)

Definition interceptWebsocket_turn {W} `{Writer W} (handler : Handler)
  : M (Reader * W) turn :=
  fun '(scanner, dst) =>
    let peekedEOF :=
      match Peek1 scanner with
      | (_, Err e) => bool_decide (e = EOF)
      | _ => false
      end in
    if peekedEOF then ((scanner, dst), Val Continue)
    else
      match ReadWebsocketFragment scanner with
      | (scanner, Panicked p) => ((scanner, dst), Panicked p)
      | (scanner, Err err) => ((scanner, dst), Val Continue)
      | (scanner, Val websocFrag) =>
          let websocFrag :=
            match handler with
            | Some h => h websocFrag
            | None => Some websocFrag
            end in
          match websocFrag with
          | None => ((scanner, dst), Panicked NilDereference)
          | Some websocFrag =>
              match Write websocFrag dst with
              | (dst, Panicked p) => ((scanner, dst), Panicked p)
              | (dst, _) => ((scanner, dst), Val Continue)
              end
          end
      end.

Inductive pump (S : Type) : Type :=
  | Returned (s : S)             (* the function returned *)
  | Crashed (s : S) (p : panic)  (* the goroutine panicked *)
  | Spinning (s : S).            (* still in the loop after the given turns *)
Arguments Returned {S} s.
Arguments Crashed {S} s p.
Arguments Spinning {S} s.

Fixpoint interceptWebsocket_loop {W} `{Writer W} (turns : nat) (handler : Handler)
    (st : Reader * W) : pump (Reader * W) :=
  match turns with
  | O => Spinning st
  | S turns' =>
      match interceptWebsocket_turn handler st with
      | (st', Val Continue) => interceptWebsocket_loop turns' handler st'
      | (st', Val Exit) => Returned st'
      | (st', Err _) => Returned st'
      | (st', Panicked p) => Crashed st' p
      end
  end.

(** [scanner := bufio.NewReader(src)] and then the loop, observed for a
    number of turns. *)
Definition interceptWebsocket {W} `{Writer W} (turns : nat) (dst : W) (src : Reader)
    (handler : Handler) : pump (Reader * W) :=
  interceptWebsocket_loop turns handler (src, dst).

(** ** cert.go: certificates *)

Record x509_Certificate : Type := {
  SerialNumber : Z;
  CommonName : string;
  NotBefore : Z;              (* seconds *)
  NotAfter : Z;
  KeyUsage : Z;
  BasicConstraintsValid : bool;
  IsCA : bool;
  IPAddresses : list (list byte);
  DNSNames : list string
}.

Record tls_Certificate : Type := {
  Certificate : list (list byte);   (* DER encodings *)
  PrivateKey : Z;
  Leaf : option x509_Certificate    (* a pointer: nil until parsed *)
}.

(** The collaborators of [GenerateCert]: the clock, [crypto/rand],
    [crypto/ecdsa], [crypto/x509] and [net.ParseIP], over whatever state
    [R] they keep. *)
Class Crypto (R : Type) : Type := {
  time_Now : R -> Z;
  rand_Int : Z -> M R Z;
  ecdsa_GenerateKey_P384 : M R Z;
  ecdsa_Public : Z -> Z;
  x509_CreateCertificate :
    x509_Certificate -> x509_Certificate -> Z -> Z -> M R (list byte);
  x509_ParseCertificate : list byte -> option x509_Certificate;
  net_ParseIP : string -> option (list byte)
}.

Definition leafMaxAge : Z := 24 * 3600.
Definition KeyUsageDigitalSignature : Z := 1.

Definition GenerateCert {R} `{Crypto R} (ca : tls_Certificate) (host : string)
  : M R tls_Certificate :=
  fun r =>
    let now := time_Now r - 3600 in
    match Leaf ca with
    | None => (r, Panicked NilDereference)
    | Some caLeaf =>
        if negb (IsCA caLeaf) then (r, Err ErrNotCA)
        else
          let serialNumberLimit := 1 ≪ 128 in
          match rand_Int serialNumberLimit r with
          | (r, Panicked p) => (r, Panicked p)
          | (r, Err _) => (r, Err ErrSerialNumber)
          | (r, Val serialNumber) =>
              let ip := net_ParseIP host in
              let template :=
                {| SerialNumber := serialNumber;
                   CommonName := host;
                   NotBefore := now;
                   NotAfter := now + leafMaxAge;
                   KeyUsage := KeyUsageDigitalSignature;
                   BasicConstraintsValid := true;
                   IsCA := false;
                   IPAddresses := match ip with Some a => [a] | None => [] end;
                   DNSNames := match ip with Some _ => [] | None => [host] end |} in
              (let* key := ecdsa_GenerateKey_P384 in
               let* derBytes :=
                 x509_CreateCertificate template caLeaf (ecdsa_Public key)
                   (PrivateKey ca) in
               ret {| Certificate := [] ++ [derBytes];
                      PrivateKey := key;
                      Leaf := x509_ParseCertificate derBytes |}) r
          end
    end.

(** The package variable [certs] (nil until [NewProxy] makes the map) next
    to the state of the collaborators. *)
Record Store (R : Type) : Type := {
  certs : option (gmap string tls_Certificate);
  crypto : R
}.
Arguments certs {R} s.
Arguments crypto {R} s.
Arguments Build_Store {R} certs crypto.

(** [val, ok := certs[host]]: reading a nil map finds nothing. *)
Definition certs_lookup {R} (st : Store R) (host : string) : option tls_Certificate :=
  match certs st with
  | None => None
  | Some m => m !! host
  end.

(** What [NewProxy] does to the package state: [certs = make(...)]. *)
Definition NewProxy_certs {R} (st : Store R) : Store R :=
  {| certs := Some ∅; crypto := crypto st |}.

Definition getCert {R} `{Crypto R} (ca : tls_Certificate) (host : string)
  : M (Store R) tls_Certificate :=
  fun st =>
    match certs_lookup st host with
    | Some val => (st, Val val)
    | None =>
        match GenerateCert ca host (crypto st) with
        | (r, Panicked p) => ({| certs := certs st; crypto := r |}, Panicked p)
        | (r, Err err) => ({| certs := certs st; crypto := r |}, Err err)
        | (r, Val cert) =>
            (* certs[host] = cert *)
            match certs st with
            | None => ({| certs := None; crypto := r |}, Panicked NilMapAssignment)
            | Some m => ({| certs := Some (<[host := cert]> m); crypto := r |}, Val cert)
            end
        end
    end.

(** A small provider to run the code on: the state is a pool of random
    words; drawing from the empty pool fails. *)
Definition draw : M (list Z) Z :=
  fun pool =>
    match pool with
    | [] => (pool, Err (ErrOther 1))
    | x :: pool' => (pool', Val x)
    end.

Global Instance poolCrypto : Crypto (list Z) :=
  {| time_Now := fun _ => 1700000000;
     rand_Int := fun limit => let* x := draw in ret (x mod limit);
     ecdsa_GenerateKey_P384 := draw;
     ecdsa_Public := fun k => k + 1;
     x509_CreateCertificate := fun template _ _ _ => ret (be_bytes8 (SerialNumber template));
     x509_ParseCertificate := fun _ => None;
     net_ParseIP := fun _ => None |}.

Definition demoCA : tls_Certificate :=
  {| Certificate := [[48]]; PrivateKey := 7;
     Leaf := Some {| SerialNumber := 1; CommonName := "demo CA"; NotBefore := 0;
                     NotAfter := 1; KeyUsage := 1; BasicConstraintsValid := true;
                     IsCA := true; IPAddresses := []; DNSNames := [] |} |}.

(** ** proxy.go: forwardReq *)

(** The handlers get pointers: what they leave in the request is part of
    their result. *)
Record Proxy : Type := {
  HandleRequest : option (Z -> Request -> Request * option Response);
  HandleResponse : option (Z -> Request -> Response -> Response)
}.

(** The upstream side of [p.HttpClient]: the requests sent so far and what
    the remote end answers. *)
Record Upstream : Type := {
  calls : list Request;
  answer : Request -> Response + error
}.

Definition HttpClient_Do (req : Request) : M Upstream Response :=
  fun up =>
    ({| calls := calls up ++ [req]; answer := answer up |},
     match answer up req with
     | inl resp => Val resp
     | inr e => Err e
     end).

(** [ctx.Value("session")]: absent on a context that was not derived from
    the one [ServeHTTP] builds. *)
Definition Context : Type := option Z.

(** [net/url.Parse] cuts the fragment off at the first [#] and rejects a
    rest that holds an ASCII control byte; what it does after that test is
    the collaborator [url_parse_rest]. *)
Class NetURL : Type := url_parse_rest : string -> URL + error.

Definition isCTLByte (c : ascii) : bool :=
  let n := nat_of_ascii c in ((n <? 32) || (n =? 127))%nat.

Fixpoint before_hash (s : string) : string :=
  match s with
  | EmptyString => EmptyString
  | String c s' => if Ascii.eqb c "#"%char then EmptyString else String c (before_hash s')
  end.

Fixpoint stringContainsCTLByte (s : string) : bool :=
  match s with
  | EmptyString => false
  | String c s' => isCTLByte c || stringContainsCTLByte s'
  end.

Definition url_Parse `{NetURL} (rawURL : string) : URL + error :=
  if stringContainsCTLByte (before_hash rawURL) then inr ErrInvalidControlChar
  else url_parse_rest rawURL.

Definition forwardReq `{NetURL} (p : Proxy) (ctx : Context) (clientRequest : Request)
    (destinationHost : string) : M Upstream Response :=
  fun up =>
    let handled : res (Request * option Response) :=
      match HandleRequest p with
      | Some handle =>
          match ctx with
          | None => Panicked InterfaceConversion
          | Some session => Val (handle session clientRequest)
          end
      | None => Val (clientRequest, None)
      end in
    match handled with
    | Panicked pn => (up, Panicked pn)
    | Err e => (up, Err e)
    | Val (_, Some hResp) => (up, Val hResp)
    | Val (clientRequest, None) =>
        let clientRequest :=
          {| Method := Method clientRequest; RequestURI := "";
             Host := Host clientRequest; Req_URL := Req_URL clientRequest;
             Req_Header := Req_Header clientRequest |} in
        match url_Parse destinationHost with
        | inr err => (up, Err err)
        | inl u =>
            let clientRequest :=
              {| Method := Method clientRequest; RequestURI := RequestURI clientRequest;
                 Host := Host clientRequest;
                 Req_URL := {| Scheme := Scheme u; URL_Host := URL_Host u;
                               Path := Path (Req_URL clientRequest) |};
                 Req_Header := Req_Header clientRequest |} in
            HttpClient_Do clientRequest up
        end
    end.

(** ** Notions used to state the properties *)

(** The bytes [xorEncrypt] computes when the key is not empty: byte [j] of
    [data], at position [i + j], against [key[(i + j) % len(key)]]. *)
Fixpoint xorCycle (i : nat) (data key : list byte) : list byte :=
  match data with
  | [] => []
  | b :: data' => Z.lxor b (key !!! (i mod length key)%nat) :: xorCycle (S i) data' key
  end.

(** Encoding into an empty [bytes.Buffer], then decoding what was written. *)
Definition encode (f : WebsocketFragment) : Buffer * res unit :=
  Write f ([] : Buffer).

Definition decode (bs : list byte) : res WebsocketFragment :=
  snd (ReadWebsocketFragment (NewReader bs)).

Definition roundtrip (f : WebsocketFragment) : res WebsocketFragment :=
  match encode f with
  | (bs, Val _) => decode bs
  | (_, Err e) => Err e
  | (_, Panicked p) => Panicked p
  end.

(** Equality on all fields, the key being compared only on masked
    fragments. *)
Definition same_fragment (f g : WebsocketFragment) : Prop :=
  FinBit f = FinBit g /\ Rsv1 f = Rsv1 g /\ Rsv2 f = Rsv2 g /\ Rsv3 f = Rsv3 g /\
  OpCode f = OpCode g /\ MaskBit f = MaskBit g /\
  PayloadLength f = PayloadLength g /\ Data f = Data g /\
  (MaskBit f = true -> Key f = Key g).

(** The first byte of a frame, and the bytes that carry its length. *)
Definition firstByteOf (f : WebsocketFragment) : byte :=
  Z.lor
    (Z.lor (Z.lor (Z.lor (if FinBit f then 128 else 0) (if Rsv1 f then 64 else 0))
                  (if Rsv2 f then 32 else 0))
           (if Rsv3 f then 16 else 0))
    (to_byte (OpCode f)).

Definition maskFlag (f : WebsocketFragment) : byte :=
  if MaskBit f then 128 else 0.

(** What follows the length bytes: the key of a masked frame, then the
    payload as [xorEncrypt] leaves it. *)
Definition keyBytes (f : WebsocketFragment) : list byte :=
  if MaskBit f then Key f else [].

Definition lengthBytes (f : WebsocketFragment) : list byte :=
  let n := PayloadLength f in
  if n <? 126 then [Z.lor (maskFlag f) (to_byte n)]
  else if n <? 65536 then [Z.lor (maskFlag f) 126; to_byte (n ≫ 8); to_byte n]
  else Z.lor (maskFlag f) 127 :: be_bytes8 n.

(** The stages of [ReadWebsocketFragment] after its two header bytes: the
    [switch] on the 7-bit length, and the key. *)
Definition readLength (payloadLength : Z) : M Reader Z :=
  if payloadLength =? 126 then
    let* lenn1 := ReadByte in
    let* lenn2 := ReadByte in
    lift (BigEndian_Uint16 ([] ++ [lenn1; lenn2]))
  else if payloadLength =? 127 then
    let* lenn := readLenn 8 [] in
    lift (BigEndian_Uint64 lenn)
  else ret payloadLength.

Definition readMaskKey (mask : bool) : M Reader (list byte) :=
  let key := replicate 4 0 in
  if mask then readKey 4 0 key else ret key.

(** The key a decoded fragment carries. *)
Definition decodedKey (f : WebsocketFragment) : list byte :=
  if MaskBit f then Key f else replicate 4 0.

Definition withKeyData (f : WebsocketFragment) (key data : list byte) : WebsocketFragment :=
  {| FinBit := FinBit f; Rsv1 := Rsv1 f; Rsv2 := Rsv2 f; Rsv3 := Rsv3 f;
     OpCode := OpCode f; MaskBit := MaskBit f; PayloadLength := PayloadLength f;
     Key := key; Data := data |}.

(** The checks behind the header lemmas: what the decoder reads off a first
    and a second byte that the encoder built. *)
Definition firstByte_ok (fin r1 r2 r3 : bool) (op : Z) : bool :=
  let b :=
    Z.lor (Z.lor (Z.lor (Z.lor (if fin then 128 else 0) (if r1 then 64 else 0))
                        (if r2 then 32 else 0)) (if r3 then 16 else 0))
          (to_byte op) in
  bool_decide (negb (Z.land b finalBit =? 0) = fin) &&
  bool_decide (negb (Z.land b rsv1Bit =? 0) = r1) &&
  bool_decide (negb (Z.land b rsv2Bit =? 0) = r2) &&
  bool_decide (negb (Z.land b rsv3Bit =? 0) = r3) &&
  (Z.land b 15 =? op).

Definition secondByte_ok (m : bool) (n : Z) : bool :=
  let b := Z.lor (if m then 128 else 0) (to_byte n) in
  bool_decide (negb (Z.land b maskBit =? 0) = m) && (Z.land b 127 =? n).

(** Fragments used as concrete inputs below. *)
Definition textFrame (mask : bool) (key data : list byte) : WebsocketFragment :=
  {| FinBit := true; Rsv1 := false; Rsv2 := false; Rsv3 := false;
     OpCode := TextMessage; MaskBit := mask; PayloadLength := len data;
     Key := key; Data := data |}.

(** A masked fragment whose opcode does not fit the four bits of the wire. *)
Definition opcode16Frame : WebsocketFragment :=
  {| FinBit := true; Rsv1 := false; Rsv2 := false; Rsv3 := false;
     OpCode := 16; MaskBit := true; PayloadLength := 2;
     Key := [1; 2; 3; 4]; Data := [0x48; 0x69] |}.

Definition opcode16Decoded : WebsocketFragment :=
  {| FinBit := true; Rsv1 := false; Rsv2 := false; Rsv3 := true;
     OpCode := 0; MaskBit := true; PayloadLength := 2;
     Key := [1; 2; 3; 4]; Data := [0x48; 0x69] |}.

(** The second case of the repository's write test: a five-byte key. *)
Definition longKeyFrame : WebsocketFragment :=
  {| FinBit := true; Rsv1 := false; Rsv2 := false; Rsv3 := false;
     OpCode := 2; MaskBit := true; PayloadLength := 11;
     Key := [0x1A; 0x2B; 0x3C; 0x4D; 0x00];
     Data := [0x68; 0x65; 0x6C; 0x6C; 0x6F; 0x20; 0x77; 0x6F; 0x72; 0x6C; 0x6c] |}.

(** An unmasked fragment that only announces a length. *)
Definition lengthProbe (n : Z) : WebsocketFragment :=
  {| FinBit := true; Rsv1 := false; Rsv2 := false; Rsv3 := false;
     OpCode := BinaryMessage; MaskBit := false; PayloadLength := n;
     Key := []; Data := [] |}.

(** An upgrade request without [Sec-WebSocket-Key], and a network on
    which dialling and writing succeed. *)
Definition upgradeNoKey : Request :=
  {| Method := "GET"; RequestURI := "/chat"; Host := "example.com:80";
     Req_URL := {| Scheme := ""; URL_Host := ""; Path := "/chat" |};
     Req_Header :=
       Header_Set (Header_Set ∅ "Connection" "keep-alive, Upgrade")
         "Upgrade" "websocket" |}.

Definition quietNet : Net :=
  {| toClient := []; clientWriteErr := None; dialErr := None; toTarget := [];
     targetAnswer := inr 101; entropy := [] |}.

(** A proxy whose request handler lets every request through, a request,
    an upstream that answers 200, a parser without objections of its
    own, and a destination made of the byte 0x7f. *)
Definition passProxy : Proxy :=
  {| HandleRequest := Some (fun _ r => (r, None)); HandleResponse := None |}.

Definition blockProxy : Proxy :=
  {| HandleRequest :=
       Some (fun _ r => (r, Some {| StatusCode := 500; Resp_Header := ∅ |}));
     HandleResponse := None |}.

Definition plainRequest : Request :=
  {| Method := "GET"; RequestURI := "http://blocked.example/"; Host := "blocked.example";
     Req_URL := {| Scheme := "http"; URL_Host := "blocked.example"; Path := "/" |};
     Req_Header := ∅ |}.

Definition quietUpstream : Upstream :=
  {| calls := []; answer := fun _ => inl {| StatusCode := 200; Resp_Header := ∅ |} |}.

Definition permissiveURL : NetURL :=
  fun rawURL => inl {| Scheme := "http"; URL_Host := rawURL; Path := "" |}.

Definition delURL : string := String "127"%char EmptyString.

(** What [forwardReq] sends once the handler let [req] through and the
    destination parsed to [u]. *)
Definition upstreamRequest (req : Request) (u : URL) : Request :=
  {| Method := Method req; RequestURI := ""; Host := Host req;
     Req_URL := {| Scheme := Scheme u; URL_Host := URL_Host u; Path := Path (Req_URL req) |};
     Req_Header := Req_Header req |}.

(** Stores for the certificate cache: [NewProxy] has run, the pool holds
    two words or none. *)
Definition freshStore (pool : list Z) : Store (list Z) :=
  NewProxy_certs {| certs := None; crypto := pool |}.

(** The first call for a host on a fresh store. *)
Definition firstMint : Store (list Z) * res tls_Certificate :=
  getCert demoCA "example.com" (freshStore [42; 99]).

Definition mintedCert : tls_Certificate :=
  {| Certificate := [be_bytes8 42]; PrivateKey := 99; Leaf := None |}.

(** Scenario of the repository's tests. *)
Definition helloFrame : WebsocketFragment :=
  {| FinBit := true; Rsv1 := false; Rsv2 := false; Rsv3 := false;
     OpCode := 2; MaskBit := true; PayloadLength := 11;
     Key := [0x1A; 0x2B; 0x3C; 0x4D];
     Data := [0x68; 0x65; 0x6C; 0x6C; 0x6F; 0x20; 0x77; 0x6F; 0x72; 0x6C; 0x6c] |}.

Definition helloBytes : list byte :=
  [0x82; 0x8B; 0x1A; 0x2B; 0x3C; 0x4D;
   0x72; 0x4E; 0x50; 0x21; 0x75; 0x0B; 0x4B; 0x22; 0x68; 0x47; 0x50].

Example Write_helloFrame : Write helloFrame ([] : Buffer) = (helloBytes, Val tt).
Proof. reflexivity. Qed.

Example Read_helloBytes :
  ReadWebsocketFragment (NewReader helloBytes) = (NewReader [], Val helloFrame).
Proof. reflexivity. Qed.

Example sha1_abc :
  sha1_Sum (bytes_of_string "abc") =
  [0xA9; 0x99; 0x3E; 0x36; 0x47; 0x06; 0x81; 0x6A; 0xBA; 0x3E;
   0x25; 0x71; 0x78; 0x50; 0xC2; 0x6C; 0x9C; 0xD0; 0xD8; 0x9D].
Proof. vm_compute. reflexivity. Qed.

Example base64_foobar : EncodeToString (bytes_of_string "fooba") = "Zm9vYmE=".
Proof. vm_compute. reflexivity. Qed.

Example accept_rfc : computeAcceptKey "dGhlIHNhbXBsZSBub25jZQ==" = "s3pPLMBiTxaQ9kYGzzhZRbK+xOo=".
Proof. vm_compute. reflexivity. Qed.

(** ** Further notions: well-formed fragments and what the decoder reads *)

Definition is_byte (b : Z) : Prop := 0 <= b < 256.

(** A fragment the codec carries faithfully: its length field is that of
    its data, its opcode fits four bits, and its key is four bytes when
    masked, not empty and all zero otherwise. *)
Definition well_formed (f : WebsocketFragment) : Prop :=
  is_uint64 (PayloadLength f) /\
  len (Data f) = PayloadLength f /\
  0 <= OpCode f < 16 /\
  (if MaskBit f then length (Key f) = 4%nat
   else Key f <> [] /\ Forall (fun k => k = 0) (Key f)).

(** The fragment the decoder returns for the encoding of [f]. *)
Definition canonical (f : WebsocketFragment) : WebsocketFragment :=
  withKeyData f (decodedKey f) (Data f).

(** The bytes before the payload: two, four or ten for flags and length,
    and four more for the key of a masked frame. *)
Definition headerSize (f : WebsocketFragment) : Z :=
  (if PayloadLength f <? 126 then 2
   else if PayloadLength f <? 65536 then 4 else 10)
  + (if MaskBit f then 4 else 0).

(** A specification of code reading from a [bufio.Reader] whose pending
    bytes satisfy [B]: it does not panic; when it fails, the error is the
    source's and the source is drained; when it succeeds, the result
    satisfies [Q] and the bytes left are a suffix of those it found. *)
Definition reads (B : Z -> Prop) {A} (m : M Reader A) (Q : A -> Prop) : Prop :=
  forall rd, Forall B (pending rd) ->
    match m rd with
    | (rd', Val a) =>
        Q a /\ srcErr rd' = srcErr rd /\
        exists used, pending rd = used ++ pending rd' /\ Forall B used
    | (rd', Err e) => e = srcErr rd /\ pending rd' = [] /\ srcErr rd' = srcErr rd
    | (rd', Panicked _) => False
    end.

(** ** websocket_test.go: compareWebsocketFragments

    The arguments are pointers; [bytes.Equal] compares contents and takes
    nil for empty. *)
Fixpoint bytes_Equal (a b : list byte) : bool :=
  match a, b with
  | [], [] => true
  | x :: a', y :: b' => (x =? y) && bytes_Equal a' b'
  | _, _ => false
  end.

Definition compareWebsocketFragments (a b : option WebsocketFragment) : bool :=
  match a, b with
  | None, None => true
  | None, Some _ => false
  | Some _, None => false
  | Some a, Some b =>
      if negb (Bool.eqb (FinBit a) (FinBit b)) || negb (Bool.eqb (Rsv1 a) (Rsv1 b)) ||
         negb (Bool.eqb (Rsv2 a) (Rsv2 b)) || negb (Bool.eqb (Rsv3 a) (Rsv3 b)) ||
         negb (OpCode a =? OpCode b) || negb (Bool.eqb (MaskBit a) (MaskBit b)) ||
         negb (PayloadLength a =? PayloadLength b) ||
         negb (bytes_Equal (Key a) (Key b)) || negb (bytes_Equal (Data a) (Data b))
      then false
      else true
  end.

(** The bytes of a sequence of fragments, each encoded in turn. *)
Definition wireOf (fs : list WebsocketFragment) : list byte :=
  flat_map (fun f => fst (encode f)) fs.

(** The answer [websocketHandshake] writes to a client that sent [key],
    and the request it writes to the target with the key [websocketKey]. *)
Definition switchingProtocols (key : string) : Response :=
  {| StatusCode := 101;
     Resp_Header :=
       Header_Add (Header_Add (Header_Add ∅
         "Sec-Websocket-Accept" (computeAcceptKey key))
         "Connection" "Upgrade")
         "Upgrade" "websocket" |}.

Definition upgradeRequest (websocketKey : string) : Request :=
  {| Method := "GET"; RequestURI := ""; Host := "";
     Req_URL := {| Scheme := "ws"; URL_Host := "127.0.0.1"; Path := "" |};
     Req_Header :=
       Header_Set (Header_Set (Header_Set (Header_Set ∅
         "Connection" "Upgrade") "Upgrade" "websocket")
         "Sec-Websocket-Key" websocketKey) "Sec-Websocket-Version" "13" |}.

(** An upgrade request that carries the key of RFC 6455, and networks on
    which the client has gone away, or the target refuses. *)
Definition upgradeWithKey : Request :=
  {| Method := "GET"; RequestURI := "/chat"; Host := "example.com:80";
     Req_URL := {| Scheme := ""; URL_Host := ""; Path := "/chat" |};
     Req_Header :=
       Header_Set (Req_Header upgradeNoKey) "Sec-Websocket-Key"
         "dGhlIHNhbXBsZSBub25jZQ==" |}.


Definition unreachableNet : Net :=
  {| toClient := []; clientWriteErr := None; dialErr := Some (ErrOther 111);
     toTarget := []; targetAnswer := inr 101; entropy := [1; 2; 3] |}.

Definition goneClientNet : Net :=
  {| toClient := []; clientWriteErr := Some (ErrOther 32); dialErr := None;
     toTarget := []; targetAnswer := inr 101; entropy := [1; 2; 3] |}.

(** ** proxy.go: forwardResp, HttpError and the plain-text branch of ServeHTTP *)

(** [err.Error()], the text of an error value. *)
Class ErrorText : Type := Error : error -> string.

(** What the proxy writes to a connection: a response on its way back, or
    the page [HttpError] builds from a status code and a text. *)
Inductive message : Type :=
  | Forwarded (resp : Response)
  | ErrorPage (code : Z) (header : Header) (body : string).

(** A connection as a sink of messages: what it has taken, and the error
    with which it refuses writes, if it does. *)
Record Conn : Type := {
  written : list message;
  connErr : option error
}.

Definition Conn_Write (m : message) : M Conn unit :=
  fun c =>
    match connErr c with
    | Some e => (c, Err e)
    | None => ({| written := written c ++ [m]; connErr := None |}, Val tt)
    end.

Definition StatusInternalServerError : Z := 500.

(** [rsp.Write(conn)] closes [HttpError]; its error is dropped. *)
Definition HttpError (conn : Conn) (er : string) (code : Z) : Conn :=
  let header : Header := ∅ in
  let header := Header_Add header "Content-Type" "text/plain; charset=utf-8" in
  let header := Header_Add header "X-Content-Type-Options" "nosniff" in
  fst (Conn_Write (ErrorPage code header er) conn).

Definition forwardResp (p : Proxy) (ctx : Context) (resp : Response) (req : Request)
  : M Conn unit :=
  fun down =>
    let handled : res Response :=
      match HandleResponse p with
      | Some handle =>
          match ctx with
          | None => Panicked InterfaceConversion
          | Some session => Val (handle session req resp)
          end
      | None => Val resp
      end in
    match handled with
    | Panicked pn => (down, Panicked pn)
    | Err e => (down, Err e)
    | Val resp => Conn_Write (Forwarded resp) down
    end.

(** The state [ServeHTTP] works on once the client connection is hijacked:
    the upstream side, the response writer [wrt] it was called with, and
    the hijacked [clientConn]. *)
Record Hijacked : Type := {
  upstream : Upstream;
  wrt : Conn;
  clientConn : Conn
}.

(** The branch [req.Method != http.MethodConnect] of [ServeHTTP]: the
    request is cloned, forwarded with its own RequestURI as destination,
    and the response is sent back with the clone at hand.  The function
    returns nothing; an error ends in a page, on [wrt] when forwarding
    failed and on [clientConn] when writing back did. *)
Definition ServeHTTP_plaintext `{NetURL} `{ErrorText} (p : Proxy) (ctx : Context)
    (req : Request) : M Hijacked unit :=
  fun s =>
    let reqClone := req in
    match forwardReq p ctx req (RequestURI req) (upstream s) with
    | (up, Panicked pn) =>
        ({| upstream := up; wrt := wrt s; clientConn := clientConn s |}, Panicked pn)
    | (up, Err err) =>
        ({| upstream := up;
            wrt := HttpError (wrt s) (Error err) StatusInternalServerError;
            clientConn := clientConn s |}, Val tt)
    | (up, Val resp) =>
        match forwardResp p ctx resp reqClone (clientConn s) with
        | (conn, Panicked pn) =>
            ({| upstream := up; wrt := wrt s; clientConn := conn |}, Panicked pn)
        | (conn, Err error) =>
            ({| upstream := up; wrt := wrt s;
                clientConn := HttpError conn (Error error) StatusInternalServerError |},
             Val tt)
        | (conn, Val _) =>
            ({| upstream := up; wrt := wrt s; clientConn := conn |}, Val tt)
        end
    end.

(** Inputs for the plain-text branch: a request handler that adds a header
    and blocks one host, as in the README, a response handler that records
    in the response what it was given, an upstream that cannot be
    reached, and open connections. *)
Definition addHeaderAndBlock (session : Z) (r : Request) : Request * option Response :=
  ({| Method := Method r; RequestURI := RequestURI r; Host := Host r;
      Req_URL := Req_URL r;
      Req_Header := Header_Add (Req_Header r) "Custom" "myval" |},
   if String.eqb (Host r) "blocked.example"
   then Some {| StatusCode := 500; Resp_Header := ∅ |}
   else None).

Definition recordHost (session : Z) (r : Request) (resp : Response) : Response :=
  {| StatusCode := StatusCode resp;
     Resp_Header := Header_Set (Resp_Header resp) "Seen-Host" (Host r) |}.

Definition taggingProxy : Proxy :=
  {| HandleRequest := Some addHeaderAndBlock; HandleResponse := Some recordHost |}.


Definition openConn : Conn := {| written := []; connErr := None |}.

Definition hijacked (up : Upstream) : Hijacked :=
  {| upstream := up; wrt := openConn; clientConn := openConn |}.

Definition plainErrors : ErrorText := fun _ => "upstream error".

(** Code reading from a [bufio.Reader] that, when it succeeds, has looked
    only at the bytes it consumed: with more bytes behind them it does the
    same and leaves those bytes as well. *)
Definition local {A} (m : M Reader A) : Prop :=
  forall rd rd' a more,
    m rd = (rd', Val a) ->
    m {| pending := pending rd ++ more; srcErr := srcErr rd |}
    = ({| pending := pending rd' ++ more; srcErr := srcErr rd' |}, Val a).

(** ** examples/websocket/main.go: the redacting handler

    [strings.Contains] and [strings.ReplaceAll] on the bytes of a string;
    [ReplaceAll] for a pattern that is not empty: matches are taken from the
    left and do not overlap.  [skip] counts the bytes of a match still to
    be passed over. *)
Fixpoint HasPrefix (s prefix : list byte) : bool :=
  match prefix, s with
  | [], _ => true
  | _ :: _, [] => false
  | p :: prefix', c :: s' => (c =? p) && HasPrefix s' prefix'
  end.

Fixpoint Contains (s substr : list byte) : bool :=
  HasPrefix s substr ||
  match s with
  | [] => false
  | _ :: s' => Contains s' substr
  end.

Fixpoint ReplaceAll_from (skip : nat) (s old new : list byte) : list byte :=
  match s with
  | [] => []
  | c :: s' =>
      match skip with
      | S skip' => ReplaceAll_from skip' s' old new
      | O =>
          if HasPrefix s old then new ++ ReplaceAll_from (length old - 1) s' old new
          else c :: ReplaceAll_from 0 s' old new
      end
  end.

Definition ReplaceAll (s old new : list byte) : list byte :=
  ReplaceAll_from 0 s old new.

Definition redactedForm : list byte := bytes_of_string "xxxxx".
Definition forbiddenWord : list byte := bytes_of_string "password".

(** The function [main] installs as [HandleWebSocRequest]; it changes the
    fragment it is given and returns it. *)
Definition redactingHandler (webFrag : WebsocketFragment) : option WebsocketFragment :=
  if FinBit webFrag && (OpCode webFrag =? 1) then
    let message := Data webFrag in
    if Contains message forbiddenWord then
      let newMessage := ReplaceAll message forbiddenWord redactedForm in
      Some {| FinBit := FinBit webFrag; Rsv1 := Rsv1 webFrag; Rsv2 := Rsv2 webFrag;
              Rsv3 := Rsv3 webFrag; OpCode := OpCode webFrag; MaskBit := MaskBit webFrag;
              PayloadLength := len newMessage;
              Key := Key webFrag; Data := newMessage |}
    else Some webFrag
  else Some webFrag.

(** * Properties *)

(** ** Bit-level facts *)

Lemma lxor_twice (b k : Z) : Z.lxor (Z.lxor b k) k = b.
Proof. by rewrite Z.lxor_assoc, Z.lxor_nilpotent, Z.lxor_0_r. Qed.

Lemma lor_shiftl_add (a b n : Z) :
  0 <= n -> 0 <= a < 2 ^ n -> Z.lor a (b ≪ n) = a + b * 2 ^ n.
Proof.
  intros Hn Ha.
  assert (Hdisj : Z.land a (b ≪ n) = 0).
  { apply Z.bits_inj'. intros k Hk.
    rewrite Z.land_spec, Z.bits_0.
    destruct (Z.lt_ge_cases k n) as [Hlt | Hge].
    - rewrite (Z.shiftl_spec_low _ _ _ Hlt). apply andb_false_r.
    - destruct (Z.eq_dec a 0) as [-> | Hnz]; [by rewrite Z.bits_0 |].
      rewrite (Z.bits_above_log2 a k); [done | lia |].
      apply Z.log2_lt_pow2; [lia |].
      apply Z.lt_le_trans with (2 ^ n); [lia |].
      apply Z.pow_le_mono_r; lia. }
  rewrite <- Z.lxor_lor by done.
  rewrite <- Z.add_nocarry_lxor by done.
  by rewrite Z.shiftl_mul_pow2.
Qed.

Lemma to_byte_range (x : Z) : 0 <= to_byte x < 256.
Proof. unfold to_byte. apply Z.mod_pos_bound. lia. Qed.

Lemma Uint16_be (n : Z) :
  0 <= n < 65536 ->
  BigEndian_Uint16 [to_byte (n ≫ 8); to_byte n] = Val n.
Proof.
  intros Hn. unfold BigEndian_Uint16. f_equal.
  pose proof (to_byte_range n) as H0.
  rewrite lor_shiftl_add by lia.
  unfold to_byte in *. rewrite Z.shiftr_div_pow2 by lia.
  change (2 ^ 8) with 256.
  rewrite (Z.mod_small (n / 256)) by (split; [apply Z.div_pos | apply Z.div_lt_upper_bound]; lia).
  pose proof (Z.div_mod n 256). lia.
Qed.

Lemma Uint64_be (n : Z) :
  0 <= n < 2 ^ 64 ->
  BigEndian_Uint64 (be_bytes8 n) = Val n.
Proof.
  intros Hn. unfold BigEndian_Uint64, be_bytes8. f_equal.
  pose proof (to_byte_range n) as H7.
  pose proof (to_byte_range (n ≫ 8)) as H6.
  pose proof (to_byte_range (n ≫ 16)) as H5.
  pose proof (to_byte_range (n ≫ 24)) as H4.
  pose proof (to_byte_range (n ≫ 32)) as H3.
  pose proof (to_byte_range (n ≫ 40)) as H2.
  pose proof (to_byte_range (n ≫ 48)) as H1.
  pose proof (to_byte_range (n ≫ 56)) as H0.
  assert (E7 : to_byte n = n mod 256) by done.
  assert (E6 : to_byte (n ≫ 8) = (n / 2 ^ 8) mod 256)
    by (unfold to_byte; by rewrite Z.shiftr_div_pow2 by lia).
  assert (E5 : to_byte (n ≫ 16) = (n / 2 ^ 16) mod 256)
    by (unfold to_byte; by rewrite Z.shiftr_div_pow2 by lia).
  assert (E4 : to_byte (n ≫ 24) = (n / 2 ^ 24) mod 256)
    by (unfold to_byte; by rewrite Z.shiftr_div_pow2 by lia).
  assert (E3 : to_byte (n ≫ 32) = (n / 2 ^ 32) mod 256)
    by (unfold to_byte; by rewrite Z.shiftr_div_pow2 by lia).
  assert (E2 : to_byte (n ≫ 40) = (n / 2 ^ 40) mod 256)
    by (unfold to_byte; by rewrite Z.shiftr_div_pow2 by lia).
  assert (E1 : to_byte (n ≫ 48) = (n / 2 ^ 48) mod 256)
    by (unfold to_byte; by rewrite Z.shiftr_div_pow2 by lia).
  assert (E0 : to_byte (n ≫ 56) = (n / 2 ^ 56) mod 256)
    by (unfold to_byte; by rewrite Z.shiftr_div_pow2 by lia).
  generalize dependent (to_byte n). generalize dependent (to_byte (n ≫ 8)).
  generalize dependent (to_byte (n ≫ 16)). generalize dependent (to_byte (n ≫ 24)).
  generalize dependent (to_byte (n ≫ 32)). generalize dependent (to_byte (n ≫ 40)).
  generalize dependent (to_byte (n ≫ 48)). generalize dependent (to_byte (n ≫ 56)).
  intros b0 ? ? b1 ? ? b2 ? ? b3 ? ? b4 ? ? b5 ? ? b6 ? ? b7 ? ?.
  rewrite (lor_shiftl_add b7 b6 8) by lia.
  rewrite (lor_shiftl_add _ b5 16) by lia.
  rewrite (lor_shiftl_add _ b4 24) by lia.
  rewrite (lor_shiftl_add _ b3 32) by lia.
  rewrite (lor_shiftl_add _ b2 40) by lia.
  rewrite (lor_shiftl_add _ b1 48) by lia.
  rewrite (lor_shiftl_add _ b0 56) by lia.
  subst.
  change (2 ^ 8) with 256. change (2 ^ 16) with 65536.
  change (2 ^ 24) with 16777216. change (2 ^ 32) with 4294967296.
  change (2 ^ 40) with 1099511627776. change (2 ^ 48) with 281474976710656.
  change (2 ^ 56) with 72057594037927936.
  change (2 ^ 64) with 18446744073709551616 in Hn.
  Z.div_mod_to_equations. lia.
Qed.

(** A property checked on every integer of [0, n) holds on each of them. *)
Lemma forallb_range (P : Z -> bool) (n : nat) :
  forallb P (map Z.of_nat (seq 0 n)) = true ->
  forall z, 0 <= z < Z.of_nat n -> P z = true.
Proof.
  intros Hall z Hz. rewrite forallb_forall in Hall. apply Hall.
  apply in_map_iff. exists (Z.to_nat z). split; [lia |].
  apply in_seq. lia.
Qed.

Lemma firstByte_decode (f : WebsocketFragment) :
  0 <= OpCode f < 16 ->
  negb (Z.land (firstByteOf f) finalBit =? 0) = FinBit f /\
  negb (Z.land (firstByteOf f) rsv1Bit =? 0) = Rsv1 f /\
  negb (Z.land (firstByteOf f) rsv2Bit =? 0) = Rsv2 f /\
  negb (Z.land (firstByteOf f) rsv3Bit =? 0) = Rsv3 f /\
  Z.land (firstByteOf f) 15 = OpCode f.
Proof.
  intros Hop.
  assert (Hok : firstByte_ok (FinBit f) (Rsv1 f) (Rsv2 f) (Rsv3 f) (OpCode f) = true).
  { revert Hop. generalize (OpCode f) as op. intros op Hop.
    destruct (FinBit f), (Rsv1 f), (Rsv2 f), (Rsv3 f);
      (apply (forallb_range (firstByte_ok _ _ _ _) 16); [by vm_compute | lia]). }
  unfold firstByte_ok in Hok. fold (firstByteOf f) in Hok.
  repeat (apply andb_prop in Hok as [Hok ?]).
  repeat match goal with H : bool_decide _ = true |- _ => apply bool_decide_eq_true in H end.
  repeat split; try done. by apply Z.eqb_eq.
Qed.

Lemma secondByte_decode (m : bool) (n : Z) :
  0 <= n < 128 ->
  let b := Z.lor (if m then 128 else 0) (to_byte n) in
  negb (Z.land b maskBit =? 0) = m /\ Z.land b 127 = n.
Proof.
  intros Hn b.
  assert (Hok : secondByte_ok m n = true).
  { destruct m; (apply (forallb_range (secondByte_ok _) 128); [by vm_compute | lia]). }
  unfold secondByte_ok in Hok. fold b in Hok.
  apply andb_prop in Hok as [Hm Hl].
  apply bool_decide_eq_true in Hm. by apply Z.eqb_eq in Hl.
Qed.

(** ** xorEncrypt *)

Lemma xorEncrypt_empty_key (b : byte) (data : list byte) :
  xorEncrypt (b :: data) [] = Panicked DivideByZero.
Proof. reflexivity. Qed.

Lemma xorEncrypt_no_data (key : list byte) : xorEncrypt [] key = Val [].
Proof. reflexivity. Qed.

Lemma xorEncrypt_loop_cycle (key : list byte) :
  key <> [] ->
  forall (data done : list byte),
    xorEncrypt_loop (length done) data key (done ++ replicate (length data) 0)
    = Val (done ++ xorCycle (length done) data key).
Proof.
  intros Hkey. induction data as [| b data IH]; intros done.
  - done.
  - assert (Hlen : Nat.eqb (length key) 0 = false)
      by (destruct key; [done | reflexivity]).
    assert (Hlt : (length done mod length key < length key)%nat)
      by (apply Nat.mod_upper_bound; by destruct key).
    cbn [xorEncrypt_loop]. rewrite Hlen.
    rewrite (list_lookup_lookup_total_lt key _ Hlt).
    cbn [length replicate].
    rewrite insert_app_r_alt by lia. rewrite Nat.sub_diag.
    cbn [insert list_insert].
    specialize (IH (done ++ [Z.lxor b (key !!! (length done mod length key)%nat)])).
    rewrite length_app in IH. cbn [length] in IH. rewrite Nat.add_1_r in IH.
    rewrite <- !app_assoc in IH. exact IH.
Qed.

Lemma xorEncrypt_cycle (data key : list byte) :
  key <> [] -> xorEncrypt data key = Val (xorCycle 0 data key).
Proof. intros Hkey. apply (xorEncrypt_loop_cycle key Hkey data []). Qed.

Lemma xorCycle_involutive (key data : list byte) (i : nat) :
  xorCycle i (xorCycle i data key) key = data.
Proof.
  revert i. induction data as [| b data IH]; intros i; simpl; [done |].
  by rewrite lxor_twice, IH.
Qed.

Lemma xorCycle_length (key data : list byte) (i : nat) :
  length (xorCycle i data key) = length data.
Proof. revert i. induction data as [| b data IH]; intros i; simpl; [done | by rewrite IH]. Qed.

Lemma xorCycle_zero_key (key data : list byte) (i : nat) :
  key <> [] -> Forall (fun k => k = 0) key -> xorCycle i data key = data.
Proof.
  intros Hkey Hzero. revert i. induction data as [| b data IH]; intros i; simpl; [done |].
  assert (Hlt : (i mod length key < length key)%nat).
  { apply Nat.mod_upper_bound. by destruct key. }
  pose proof (list_lookup_lookup_total_lt key _ Hlt) as Hk.
  rewrite (Forall_lookup_1 _ _ _ _ Hzero Hk), Z.lxor_0_r. by rewrite IH.
Qed.

(** ** Reading the payload back *)

Lemma readData_loop_exact (data rest acc : list byte) (i : Z) (e : error) :
  readData_loop (i + len data) i acc (data ++ rest) e
  = ({| pending := rest; srcErr := e |}, Val (acc ++ data)).
Proof.
  revert acc i. induction data as [| c data IH]; intros acc i.
  - unfold len. simpl. rewrite Z.add_0_r.
    destruct rest; simpl; rewrite Z.ltb_irrefl, app_nil_r; done.
  - simpl. unfold len. simpl length.
    replace (i <? i + Z.of_nat (S (length data))) with true
      by (symmetry; apply Z.ltb_lt; lia).
    replace (i + Z.of_nat (S (length data))) with ((i + 1) + len data)
      by (unfold len; lia).
    rewrite IH. by rewrite <- app_assoc.
Qed.

(** ** Writing to any sink

    What follows holds for every [io.Writer]. *)

Section AnySink.

Context {W : Type} {sink : Writer W}.

(** What Write puts on the wire. *)
Lemma Write_wire (f : WebsocketFragment) (w : W) :
  Write f w =
  if MaskBit f && negb (Nat.eqb (length (Key f)) 4) then (w, Err ErrorMaskKeyLength)
  else
    match xorEncrypt (Data f) (Key f) with
    | Panicked p => (w, Panicked p)
    | Err e => (w, Err e)
    | Val encryptedData =>
        match io_Write w (firstByteOf f :: lengthBytes f ++ keyBytes f ++ encryptedData) with
        | (w', Some _) => (w', Err ErrWritingHeader)
        | (w', None) => (w', Val tt)
        end
    end.
Proof.
  unfold Write, firstByteOf, lengthBytes, keyBytes, maskFlag, be_bytes8,
    finalBit, rsv1Bit, rsv2Bit, rsv3Bit, maskBit.
  destruct (MaskBit f && negb (Nat.eqb (length (Key f)) 4)); [done |].
  destruct (xorEncrypt (Data f) (Key f)) as [enc | e | p]; [| done | done].
  destruct (FinBit f), (Rsv1 f), (Rsv2 f), (Rsv3 f), (MaskBit f),
    (PayloadLength f <? 126), (PayloadLength f <? 65536);
    simpl; rewrite <- ?app_assoc; reflexivity.
Qed.

(** C2.  With the mask bit set and a key that is not four bytes long,
    Write returns ErrorMaskKeyLength and leaves the sink as it was: the
    writer is never called. *)
Theorem C2_bad_key_length_writes_nothing
    (f : WebsocketFragment) (w : W) :
  MaskBit f = true ->
  length (Key f) <> 4%nat ->
  Write f w = (w, Err ErrorMaskKeyLength).
Proof.
  intros Hm Hlen. rewrite Write_wire, Hm.
  apply Nat.eqb_neq in Hlen. by rewrite Hlen.
Qed.

(** C9.  Write is partial: on an unmasked fragment with an empty key and
    some data, xorEncrypt takes an index modulo zero and the call panics,
    with nothing written. *)
Theorem C9_Write_panics_on_empty_key
    (f : WebsocketFragment) (w : W) :
  MaskBit f = false ->
  Key f = [] ->
  Data f <> [] ->
  Write f w = (w, Panicked DivideByZero).
Proof.
  intros Hm Hkey Hdata. rewrite Write_wire, Hm, Hkey.
  destruct (Data f) as [| b data]; [done |]. reflexivity.
Qed.

(** The relay pump. *)
Lemma interceptWebsocket_turn_EOF (handler : Handler) (dst : W) :
  interceptWebsocket_turn handler (NewReader [], dst)
  = ((NewReader [], dst), Val Continue).
Proof. reflexivity. Qed.

(** A turn of the loop never leaves it: it continues or panics. *)
Lemma interceptWebsocket_turn_no_exit (handler : Handler)
    (st : Reader * W) :
  (exists st', interceptWebsocket_turn handler st = (st', Val Continue)) \/
  (exists st' p, interceptWebsocket_turn handler st = (st', Panicked p)).
Proof.
  destruct st as [scanner dst]. unfold interceptWebsocket_turn.
  destruct (match Peek1 scanner with (_, Err e) => bool_decide (e = EOF) | _ => false end);
    [left; eauto |].
  destruct (ReadWebsocketFragment scanner) as [scanner' [frag | e | p]];
    [| left; eauto | right; eauto].
  destruct (match handler with Some h => h frag | None => Some frag end) as [frag' |];
    [| right; eauto].
  destruct (Write frag' dst) as [dst' [[] | e | p]]; [left | left | right]; eauto.
Qed.

Lemma interceptWebsocket_never_returns (turns : nat)
    (handler : Handler) (st s : Reader * W) :
  interceptWebsocket_loop turns handler st <> Returned s.
Proof.
  revert st. induction turns as [| turns IH]; intros st; simpl; [done |].
  destruct (interceptWebsocket_turn_no_exit handler st) as [[st' ->] | (st' & p & ->)];
    [apply IH | done].
Qed.

Lemma interceptWebsocket_loop_EOF (turns : nat) (dst : W)
    (handler : Handler) :
  interceptWebsocket_loop turns handler (NewReader [], dst)
  = Spinning (NewReader [], dst).
Proof.
  induction turns as [| turns IH]; [done |].
  cbn [interceptWebsocket_loop]. by rewrite interceptWebsocket_turn_EOF.
Qed.

(** C8: the code does otherwise.  On a source at end of file the pump is
    still in its loop after any number of turns, with source and sink as
    they were: the EOF branch is [continue], and the loop has no exit. *)
Theorem C8_pump_spins_at_EOF (turns : nat) (dst : W)
    (handler : Handler) :
  interceptWebsocket turns dst (NewReader []) handler
  = Spinning (NewReader [], dst).
Proof. apply interceptWebsocket_loop_EOF. Qed.

End AnySink.

Lemma C2_bad_key_length_witness :
  Write longKeyFrame ([7; 7] : Buffer) = ([7; 7], Err ErrorMaskKeyLength).
Proof.
  apply (C2_bad_key_length_writes_nothing longKeyFrame).
  - reflexivity.
  - simpl. lia.
Defined.

Lemma C9_Write_panics_witness :
  Write (textFrame false [] [0x48; 0x69]) ([] : Buffer) = ([], Panicked DivideByZero).
Proof.
  apply (C9_Write_panics_on_empty_key (textFrame false [] [0x48; 0x69])).
  - reflexivity.
  - reflexivity.
  - discriminate.
Defined.

(** The same after a frame was relayed: the hello frame goes through, then
    the pump spins. *)
Example pump_relays_then_spins (turns : nat) :
  interceptWebsocket (S turns) ([] : Buffer) (NewReader helloBytes) None
  = Spinning (NewReader [], helloBytes).
Proof.
  unfold interceptWebsocket. cbn [interceptWebsocket_loop].
  replace (interceptWebsocket_turn None (NewReader helloBytes, [] : Buffer))
    with ((NewReader [], helloBytes : Buffer), Val (A := turn) Continue) by reflexivity.
  apply (interceptWebsocket_loop_EOF turns (helloBytes : Buffer) None).
Qed.

(** ** Decoding what Write puts on the wire *)

Lemma ReadWebsocketFragment_stages :
  ReadWebsocketFragment =
  (let* b0 := ReadByte in
   let* b1 := ReadByte in
   let* payloadLength := readLength (Z.land b1 127) in
   let* key := readMaskKey (negb (Z.land b1 maskBit =? 0)) in
   let* data := readData payloadLength in
   let* data := lift (xorEncrypt data key) in
   ret {| FinBit := negb (Z.land b0 finalBit =? 0);
          Rsv1 := negb (Z.land b0 rsv1Bit =? 0);
          Rsv2 := negb (Z.land b0 rsv2Bit =? 0);
          Rsv3 := negb (Z.land b0 rsv3Bit =? 0);
          OpCode := Z.land b0 15;
          MaskBit := negb (Z.land b1 maskBit =? 0);
          PayloadLength := payloadLength; Key := key; Data := data |}).
Proof. reflexivity. Qed.

Lemma bind_Val {S A B} (m : M S A) (k : A -> M S B) (s s' : S) (a : A) :
  m s = (s', Val a) -> bind m k s = k a s'.
Proof. intros Hm. unfold bind. by rewrite Hm. Qed.

Lemma ReadByte_cons (c : byte) (rest : list byte) (e : error) :
  ReadByte {| pending := c :: rest; srcErr := e |}
  = ({| pending := rest; srcErr := e |}, Val c).
Proof. reflexivity. Qed.

(** One [b.ReadByte()] on a source whose next byte is known. *)
Ltac read_byte := erewrite bind_Val by apply ReadByte_cons.

Lemma readLenn_8 (b0 b1 b2 b3 b4 b5 b6 b7 : byte) (rest : list byte) (e : error) :
  readLenn 8 []
    {| pending := [b0; b1; b2; b3; b4; b5; b6; b7] ++ rest; srcErr := e |}
  = ({| pending := rest; srcErr := e |}, Val [b0; b1; b2; b3; b4; b5; b6; b7]).
Proof. reflexivity. Qed.

Lemma readLength_wire (f : WebsocketFragment) (rest : list byte) (e : error) :
  0 <= PayloadLength f < 2 ^ 64 ->
  exists b1 ext,
    lengthBytes f = b1 :: ext /\
    negb (Z.land b1 maskBit =? 0) = MaskBit f /\
    readLength (Z.land b1 127) {| pending := ext ++ rest; srcErr := e |}
    = ({| pending := rest; srcErr := e |}, Val (PayloadLength f)).
Proof.
  intros Hn. unfold lengthBytes, maskFlag.
  destruct (Z.ltb_spec (PayloadLength f) 126) as [H126 | H126].
  - eexists _, []. split; [reflexivity |].
    destruct (secondByte_decode (MaskBit f) (PayloadLength f)) as [Hm Hl]; [lia |].
    split; [exact Hm |]. rewrite Hl. unfold readLength.
    replace (PayloadLength f =? 126) with false by (symmetry; apply Z.eqb_neq; lia).
    replace (PayloadLength f =? 127) with false by (symmetry; apply Z.eqb_neq; lia).
    reflexivity.
  - destruct (Z.ltb_spec (PayloadLength f) 65536) as [H64k | H64k].
    + eexists _, _. split; [reflexivity |].
      split; [by destruct (MaskBit f) |].
      replace (Z.land (Z.lor (if MaskBit f then 128 else 0) 126) 127) with 126
        by (by destruct (MaskBit f)).
      unfold readLength. cbn [Z.eqb Pos.eqb app].
      do 2 read_byte.
      unfold lift. by rewrite Uint16_be by lia.
    + eexists _, _. split; [reflexivity |].
      split; [by destruct (MaskBit f) |].
      replace (Z.land (Z.lor (if MaskBit f then 128 else 0) 127) 127) with 127
        by (by destruct (MaskBit f)).
      unfold readLength. cbn [Z.eqb Pos.eqb].
      erewrite bind_Val by (unfold be_bytes8; apply readLenn_8).
      unfold lift. fold (be_bytes8 (PayloadLength f)). by rewrite Uint64_be.
Qed.

Lemma readMaskKey_wire (f : WebsocketFragment) (rest : list byte) (e : error) :
  (MaskBit f = true -> length (Key f) = 4%nat) ->
  readMaskKey (MaskBit f) {| pending := keyBytes f ++ rest; srcErr := e |}
  = ({| pending := rest; srcErr := e |}, Val (decodedKey f)).
Proof.
  intros Hkey. unfold readMaskKey, keyBytes, decodedKey.
  destruct (MaskBit f); [| reflexivity].
  specialize (Hkey eq_refl).
  destruct (Key f) as [| k0 [| k1 [| k2 [| k3 [| k4 key]]]]]; try done.
Qed.

Lemma Read_wire (f : WebsocketFragment) (enc rest : list byte) (e : error) :
  0 <= OpCode f < 16 ->
  0 <= PayloadLength f < 2 ^ 64 ->
  len enc = PayloadLength f ->
  (MaskBit f = true -> length (Key f) = 4%nat) ->
  ReadWebsocketFragment
    {| pending := firstByteOf f :: lengthBytes f ++ keyBytes f ++ enc ++ rest;
       srcErr := e |}
  = ({| pending := rest; srcErr := e |},
     match xorEncrypt enc (decodedKey f) with
     | Val data => Val (withKeyData f (decodedKey f) data)
     | Err err => Err err
     | Panicked p => Panicked p
     end).
Proof.
  intros Hop Hn Hlen Hkey.
  destruct (firstByte_decode f Hop) as (Hfin & Hr1 & Hr2 & Hr3 & Hcode).
  destruct (readLength_wire f (keyBytes f ++ enc ++ rest) e Hn)
    as (b1 & ext & Hbytes & Hmask & Hlength).
  rewrite ReadWebsocketFragment_stages, Hbytes. cbn [app].
  do 2 read_byte.
  erewrite bind_Val by apply Hlength.
  rewrite Hmask, Hfin, Hr1, Hr2, Hr3, Hcode.
  erewrite bind_Val by (by apply readMaskKey_wire).
  erewrite bind_Val; cycle 1.
  { unfold readData. cbn [pending srcErr].
    rewrite <- Hlen. apply (readData_loop_exact enc rest [] 0). }
  cbn [app]. unfold bind, lift, ret.
  destruct (xorEncrypt enc (decodedKey f)); reflexivity.
Qed.

Lemma encode_wire (f : WebsocketFragment) (enc : list byte) :
  (MaskBit f = true -> length (Key f) = 4%nat) ->
  xorEncrypt (Data f) (Key f) = Val enc ->
  encode f = (firstByteOf f :: lengthBytes f ++ keyBytes f ++ enc, Val tt).
Proof.
  intros Hkey Henc. unfold encode. rewrite Write_wire, Henc.
  destruct (MaskBit f) eqn:Hm; [rewrite (Hkey eq_refl) |]; reflexivity.
Qed.

Lemma decode_wire (f : WebsocketFragment) (enc : list byte) :
  0 <= OpCode f < 16 ->
  0 <= PayloadLength f < 2 ^ 64 ->
  len enc = PayloadLength f ->
  (MaskBit f = true -> length (Key f) = 4%nat) ->
  decode (firstByteOf f :: lengthBytes f ++ keyBytes f ++ enc)
  = match xorEncrypt enc (decodedKey f) with
    | Val data => Val (withKeyData f (decodedKey f) data)
    | Err err => Err err
    | Panicked p => Panicked p
    end.
Proof.
  intros Hop Hn Hlen Hkey. unfold decode, NewReader.
  pose proof (Read_wire f enc [] EOF Hop Hn Hlen Hkey) as Hread.
  rewrite app_nil_r in Hread. by rewrite Hread.
Qed.

(** ** The frame codec *)

(** C1 (as amended).  A fragment whose payload length is that of its data,
    whose opcode fits four bits, and whose key is four bytes when masked,
    or not empty and all zero when unmasked, is decoded from its own
    encoding with every field equal, the key being compared only when the
    fragment is masked. *)
Theorem C1_roundtrip (f : WebsocketFragment) :
  is_uint64 (PayloadLength f) ->
  len (Data f) = PayloadLength f ->
  0 <= OpCode f < 16 ->
  (if MaskBit f then length (Key f) = 4%nat
   else Key f <> [] /\ Forall (fun k => k = 0) (Key f)) ->
  exists g, roundtrip f = Val g /\ same_fragment f g.
Proof.
  intros Hn Hlen Hop Hkey. unfold is_uint64 in Hn.
  assert (Hk4 : MaskBit f = true -> length (Key f) = 4%nat)
    by (intros Hm; by rewrite Hm in Hkey).
  assert (Hne : Key f <> []).
  { destruct (MaskBit f); [| tauto]. by destruct (Key f). }
  exists (withKeyData f (decodedKey f) (Data f)). split.
  - unfold roundtrip.
    rewrite (encode_wire f (xorCycle 0 (Data f) (Key f)) Hk4 (xorEncrypt_cycle _ _ Hne)).
    rewrite decode_wire; [| done | done | | done].
    + unfold decodedKey. destruct (MaskBit f).
      * rewrite (xorEncrypt_cycle _ _ Hne). by rewrite xorCycle_involutive.
      * destruct Hkey as [_ Hzero].
        rewrite (xorCycle_zero_key _ _ _ Hne Hzero).
        rewrite xorEncrypt_cycle by done.
        rewrite xorCycle_zero_key; [done | done |].
        by repeat constructor.
    + unfold len. rewrite xorCycle_length. exact Hlen.
  - unfold same_fragment, withKeyData, decodedKey. simpl.
    repeat split; try done. intros Hm. by rewrite Hm.
Qed.

Lemma C1_roundtrip_witness :
  exists g, roundtrip helloFrame = Val g /\ same_fragment helloFrame g.
Proof.
  apply (C1_roundtrip helloFrame).
  - unfold is_uint64. simpl. lia.
  - reflexivity.
  - simpl. lia.
  - reflexivity.
Defined.

(** C1 as the specification states it fails: with opcode 16 the fragment
    satisfies both conditions, and comes back with opcode 0 and Rsv3
    set. *)
Lemma C1_opcode_counterexample :
  len (Data opcode16Frame) = PayloadLength opcode16Frame /\
  (MaskBit opcode16Frame = true -> length (Key opcode16Frame) = 4%nat) /\
  roundtrip opcode16Frame = Val opcode16Decoded /\
  ~ same_fragment opcode16Frame opcode16Decoded.
Proof.
  split; [reflexivity |]. split; [reflexivity |]. split; [reflexivity |].
  unfold same_fragment. simpl. intros (_ & _ & _ & Hrsv3 & _). discriminate.
Qed.

(** What Write sends for an unmasked fragment with a key: the data against
    the cycled key, behind a header that announces no mask. *)
Lemma encode_unmasked (f : WebsocketFragment) :
  MaskBit f = false ->
  Key f <> [] ->
  encode f = (firstByteOf f :: lengthBytes f ++ xorCycle 0 (Data f) (Key f), Val tt).
Proof.
  intros Hm Hkey.
  rewrite (encode_wire f (xorCycle 0 (Data f) (Key f)));
    [| by rewrite Hm | by apply xorEncrypt_cycle].
  unfold keyBytes. by rewrite Hm.
Qed.

(** Unmasked fragments with a key of their own do not come back: the
    payload is xor-ed on the way out and read as it stands on the way in;
    with the empty key the encoder panics. *)
Example roundtrip_unmasked_keyed :
  roundtrip (textFrame false [0x20] [0x48; 0x69])
  = Val (textFrame false [0; 0; 0; 0] [0x68; 0x49]).
Proof. reflexivity. Qed.

Example roundtrip_unmasked_no_key :
  roundtrip (textFrame false [] [0x48; 0x69]) = Panicked DivideByZero.
Proof. reflexivity. Qed.

Example roundtrip_unmasked_zero_key :
  roundtrip (textFrame false [0; 0; 0; 0] [0x48; 0x69])
  = Val (textFrame false [0; 0; 0; 0] [0x48; 0x69]).
Proof. reflexivity. Qed.

(** C3: the code does otherwise.  On an unmasked fragment with key [0x20]
    and data "Hi", Write announces two unmasked bytes and sends "hI": the
    payload is the data xor-ed with the key, not the data. *)
Theorem C3_unmasked_payload_is_xored :
  let f := textFrame false [0x20] [0x48; 0x69] in
  MaskBit f = false /\
  encode f = ([0x81; 0x02; 0x68; 0x49], Val tt) /\
  drop 2 (fst (encode f)) <> Data f.
Proof. simpl. repeat split; done. Qed.

(** C4.  Write chooses the length form by the payload length: 125 sits in
    the second byte; 126 and 65535 are announced by 126 and two big-endian
    bytes; 65536 by 127 and eight big-endian bytes. *)
Theorem C4_length_encoding (f : WebsocketFragment) (enc : list byte) :
  (MaskBit f = true -> length (Key f) = 4%nat) ->
  xorEncrypt (Data f) (Key f) = Val enc ->
  let rest := keyBytes f ++ enc in
  (PayloadLength f = 125 ->
   encode f = (firstByteOf f :: Z.lor (maskFlag f) 125 :: rest, Val tt)) /\
  (PayloadLength f = 126 ->
   encode f = (firstByteOf f :: Z.lor (maskFlag f) 126 :: 0 :: 126 :: rest, Val tt)) /\
  (PayloadLength f = 65535 ->
   encode f = (firstByteOf f :: Z.lor (maskFlag f) 126 :: 255 :: 255 :: rest, Val tt)) /\
  (PayloadLength f = 65536 ->
   encode f = (firstByteOf f :: Z.lor (maskFlag f) 127
                 :: 0 :: 0 :: 0 :: 0 :: 0 :: 1 :: 0 :: 0 :: rest, Val tt)).
Proof.
  intros Hkey Henc rest.
  rewrite (encode_wire f enc Hkey Henc). unfold lengthBytes.
  repeat split; intros ->; reflexivity.
Qed.

Lemma C4_length_encoding_witness :
  encode (lengthProbe 125) = ([0x82; 125], Val tt) /\
  encode (lengthProbe 126) = ([0x82; 126; 0; 126], Val tt) /\
  encode (lengthProbe 65535) = ([0x82; 126; 255; 255], Val tt) /\
  encode (lengthProbe 65536) = ([0x82; 127; 0; 0; 0; 0; 0; 1; 0; 0], Val tt).
Proof.
  split; [| split; [| split]].
  - apply (C4_length_encoding (lengthProbe 125) []); [discriminate | reflexivity..].
  - apply (C4_length_encoding (lengthProbe 126) []); [discriminate | reflexivity..].
  - apply (C4_length_encoding (lengthProbe 65535) []); [discriminate | reflexivity..].
  - apply (C4_length_encoding (lengthProbe 65536) []); [discriminate | reflexivity..].
Defined.

(** ** The accept key *)

Lemma bytes_of_string_app (s t : string) :
  bytes_of_string (s ++ t) = bytes_of_string s ++ bytes_of_string t.
Proof. induction s as [| c s IH]; simpl; [done | by rewrite IH]. Qed.

(** C7.  The accept key is the base64 text of the SHA-1 digest of the
    client key followed by the GUID; on the key of RFC 6455 section 1.3 it
    is the text the RFC gives. *)
Theorem C7_computeAcceptKey :
  (forall key : string,
     computeAcceptKey key =
     EncodeToString
       (sha1_Sum (bytes_of_string (key ++ "258EAFA5-E914-47DA-95CA-C5AB0DC85B11")))) /\
  computeAcceptKey "dGhlIHNhbXBsZSBub25jZQ==" = "s3pPLMBiTxaQ9kYGzzhZRbK+xOo=".
Proof.
  split.
  - intros key. rewrite bytes_of_string_app. reflexivity.
  - vm_compute. reflexivity.
Qed.

(** ** The upgrade handshake *)

Lemma websocketHandshake_no_key (req : Request) (n : Net) :
  Header_index (Req_Header req) "Sec-Websocket-Key" = [] ->
  websocketHandshake req n = (n, Panicked IndexOutOfRange).
Proof. intros Hkey. unfold websocketHandshake, bind, lift. by rewrite Hkey. Qed.

Lemma isWebSocketRequest_headers (r r' : Request) :
  Req_Header r' !! "Connection" = Req_Header r !! "Connection" ->
  Req_Header r' !! "Upgrade" = Req_Header r !! "Upgrade" ->
  isWebSocketRequest r' = isWebSocketRequest r.
Proof.
  intros Hc Hu. unfold isWebSocketRequest, headerContains, Header_index.
  by rewrite Hc, Hu.
Qed.

(** C10.  Without a Sec-WebSocket-Key value the handshake panics on its
    first statement, the index 0 of an empty slice.  The test that guards
    the relay reads the Connection and Upgrade headers and nothing else, so
    a request that passes it and has no key panics in serveWebsocket as
    soon as the target is dialled. *)
Theorem C10_handshake_panics_without_key (req : Request) (n : Net) :
  Header_index (Req_Header req) "Sec-Websocket-Key" = [] ->
  websocketHandshake req n = (n, Panicked IndexOutOfRange) /\
  (forall req' : Request,
     Req_Header req' !! "Connection" = Req_Header req !! "Connection" ->
     Req_Header req' !! "Upgrade" = Req_Header req !! "Upgrade" ->
     isWebSocketRequest req' = isWebSocketRequest req) /\
  (isWebSocketRequest req = true -> dialErr n = None ->
   serveIfWebsocket req n = (n, Panicked IndexOutOfRange)).
Proof.
  intros Hkey. split; [by apply websocketHandshake_no_key |].
  split; [intros req'; apply isWebSocketRequest_headers |].
  intros Hup Hdial. unfold serveIfWebsocket. rewrite Hup.
  unfold serveWebsocket, connectDial. rewrite Hdial.
  by rewrite websocketHandshake_no_key.
Qed.

Lemma C10_handshake_panics_witness :
  isWebSocketRequest upgradeNoKey = true /\
  serveIfWebsocket upgradeNoKey quietNet = (quietNet, Panicked IndexOutOfRange).
Proof.
  split; [vm_compute; reflexivity |].
  apply (C10_handshake_panics_without_key upgradeNoKey quietNet).
  - vm_compute. reflexivity.
  - vm_compute. reflexivity.
  - reflexivity.
Defined.

(** ** The certificate cache *)

Lemma getCert_cached {R} `{Crypto R} (ca : tls_Certificate) (host : string)
    (st : Store R) (cert : tls_Certificate) :
  certs_lookup st host = Some cert -> getCert ca host st = (st, Val cert).
Proof. intros Hhit. unfold getCert. by rewrite Hhit. Qed.

Lemma getCert_Val_cached {R} `{Crypto R} (ca : tls_Certificate) (host : string)
    (st st' : Store R) (cert : tls_Certificate) :
  getCert ca host st = (st', Val cert) -> certs_lookup st' host = Some cert.
Proof.
  unfold getCert. destruct (certs_lookup st host) as [val |] eqn:Hlook.
  - intros [= <- <-]. exact Hlook.
  - destruct (GenerateCert ca host (crypto st)) as [r [c | e | p]]; [| done | done].
    destruct (certs st) as [m |]; [| done].
    intros [= <- <-]. unfold certs_lookup. simpl. apply lookup_insert_eq.
Qed.

(** C5.  getCert memoizes per host name: after a call that returned a
    certificate, a call for the same host returns that certificate and
    leaves the whole state, the collaborators' included, as it was, so
    nothing is minted; and when GenerateCert fails on a host that is not
    cached, its error is returned and the map is the one before the
    call. *)
Theorem C5_getCert_memoizes {R} `{Crypto R} (ca ca' : tls_Certificate)
    (host : string) (st st' : Store R) (cert : tls_Certificate)
    (r : R) (e : error) :
  (getCert ca host st = (st', Val cert) ->
   getCert ca' host st' = (st', Val cert)) /\
  (certs_lookup st host = None ->
   GenerateCert ca host (crypto st) = (r, Err e) ->
   getCert ca host st = ({| certs := certs st; crypto := r |}, Err e)).
Proof.
  split.
  - intros Hfirst. apply getCert_cached. by apply (getCert_Val_cached ca host st).
  - intros Hmiss Hgen. unfold getCert. by rewrite Hmiss, Hgen.
Qed.

Lemma C5_getCert_memoizes_witness :
  firstMint = (fst firstMint, Val mintedCert) /\
  getCert demoCA "example.com" (fst firstMint) = (fst firstMint, Val mintedCert) /\
  getCert demoCA "example.com" (freshStore [])
  = ({| certs := certs (freshStore []); crypto := [] |}, Err ErrSerialNumber).
Proof.
  assert (Hfirst : firstMint = (fst firstMint, Val mintedCert))
    by (vm_compute; reflexivity).
  split; [exact Hfirst |]. split.
  - apply (C5_getCert_memoizes demoCA demoCA "example.com"
             (freshStore [42; 99]) (fst firstMint) mintedCert [] EOF).
    exact Hfirst.
  - apply (C5_getCert_memoizes demoCA demoCA "example.com"
             (freshStore []) (freshStore []) mintedCert [] ErrSerialNumber).
    + reflexivity.
    + reflexivity.
Defined.

(** ** Forwarding a request *)

Lemma forwardReq_handled `{NetURL} (p : Proxy)
    (handle : Z -> Request -> Request * option Response) (session : Z)
    (req : Request) (dest : string) (up : Upstream) :
  HandleRequest p = Some handle ->
  forwardReq p (Some session) req dest up =
  match handle session req with
  | (_, Some hResp) => (up, Val hResp)
  | (req', None) =>
      match url_Parse dest with
      | inr err => (up, Err err)
      | inl u => HttpClient_Do (upstreamRequest req' u) up
      end
  end.
Proof.
  intros Hset. unfold forwardReq. rewrite Hset.
  destruct (handle session req) as [req' [hResp |]]; reflexivity.
Qed.

(** C6 (as amended).  With a request handler set: when it returns a
    response, forwardReq returns that response and the upstream side is
    untouched, HttpClient.Do is not called; when it returns nil and the
    destination parses as a URL, the request is sent upstream by one call of
    HttpClient.Do, whose result is returned; when it returns nil and the
    destination does not parse, the parse error is returned and nothing
    is sent. *)
Theorem C6_forwardReq_short_circuit `{NetURL} (p : Proxy)
    (handle : Z -> Request -> Request * option Response) (session : Z)
    (req req' : Request) (dest : string) (up : Upstream) :
  HandleRequest p = Some handle ->
  (forall hResp : Response,
     handle session req = (req', Some hResp) ->
     forwardReq p (Some session) req dest up = (up, Val hResp)) /\
  (forall u : URL,
     handle session req = (req', None) ->
     url_Parse dest = inl u ->
     forwardReq p (Some session) req dest up
     = HttpClient_Do (upstreamRequest req' u) up /\
     calls (fst (forwardReq p (Some session) req dest up))
     = calls up ++ [upstreamRequest req' u]) /\
  (forall err : error,
     handle session req = (req', None) ->
     url_Parse dest = inr err ->
     forwardReq p (Some session) req dest up = (up, Err err)).
Proof.
  intros Hset. rewrite (forwardReq_handled p handle session req dest up Hset).
  split; [| split].
  - intros hResp ->. reflexivity.
  - intros u -> ->. split; reflexivity.
  - intros err -> ->. reflexivity.
Qed.

Lemma C6_forwardReq_witness :
  forwardReq (H := permissiveURL) blockProxy (Some 7) plainRequest
    "http://blocked.example/" quietUpstream
  = (quietUpstream, Val {| StatusCode := 500; Resp_Header := ∅ |}) /\
  calls (fst (forwardReq (H := permissiveURL) passProxy (Some 7) plainRequest
                "http://blocked.example/" quietUpstream))
  = [upstreamRequest plainRequest
       {| Scheme := "http"; URL_Host := "http://blocked.example/"; Path := "" |}].
Proof.
  split.
  - eapply (C6_forwardReq_short_circuit (H := permissiveURL) blockProxy _ 7
              plainRequest plainRequest "http://blocked.example/" quietUpstream);
      reflexivity.
  - eapply (C6_forwardReq_short_circuit (H := permissiveURL) passProxy _ 7
              plainRequest plainRequest "http://blocked.example/" quietUpstream);
      reflexivity.
Defined.

(** C6 as the specification states it fails: the handler returns nil, the
    destination holds a control byte, and forwardReq returns the parse
    error with the upstream side untouched: nothing is forwarded. *)
Lemma C6_unparsable_destination_counterexample :
  HandleRequest passProxy = Some (fun _ r => (r, None)) /\
  forwardReq (H := permissiveURL) passProxy (Some 7) plainRequest delURL quietUpstream
  = (quietUpstream, Err ErrInvalidControlChar) /\
  calls (fst (forwardReq (H := permissiveURL) passProxy (Some 7) plainRequest delURL
                quietUpstream)) = [].
Proof. repeat split. Qed.

(** * Further properties of the code *)

(** ** xorEncrypt and Write *)

(** X1.  Masking is an involution: with a key that is not empty, applying
    xorEncrypt twice gives the data back. *)
Theorem X1_xorEncrypt_involutive (data key : list byte) :
  key <> [] ->
  exists enc, xorEncrypt data key = Val enc /\ xorEncrypt enc key = Val data.
Proof.
  intros Hkey. exists (xorCycle 0 data key). split.
  - by apply xorEncrypt_cycle.
  - rewrite xorEncrypt_cycle by done. by rewrite xorCycle_involutive.
Qed.

Lemma X1_xorEncrypt_involutive_witness :
  exists enc, xorEncrypt [0x68; 0x65; 0x6C] [0x1A; 0x2B] = Val enc /\
              xorEncrypt enc [0x1A; 0x2B] = Val [0x68; 0x65; 0x6C].
Proof. apply (X1_xorEncrypt_involutive [0x68; 0x65; 0x6C] [0x1A; 0x2B]). discriminate. Defined.

Lemma xorEncrypt_outcome (data key : list byte) :
  match xorEncrypt data key with
  | Val enc => length enc = length data /\ (data = [] \/ key <> [])
  | Err _ => False
  | Panicked p => p = DivideByZero /\ data <> [] /\ key = []
  end.
Proof.
  destruct key as [| k key].
  - destruct data as [| b data]; simpl; [split; [done | by left] | done].
  - rewrite xorEncrypt_cycle by done. split; [apply xorCycle_length | by right].
Qed.

(** X2.  xorEncrypt never returns an error; it panics, dividing by zero,
    exactly on data that is not empty with an empty key, and otherwise
    returns as many bytes as it was given. *)
Theorem X2_xorEncrypt_outcome (data key : list byte) :
  match xorEncrypt data key with
  | Val enc => length enc = length data /\ (data = [] \/ key <> [])
  | Err _ => False
  | Panicked p => p = DivideByZero /\ data <> [] /\ key = []
  end.
Proof. apply xorEncrypt_outcome. Qed.

(** X3.  The three ways Write ends, for every sink.  It returns
    ErrorMaskKeyLength exactly on a masked fragment whose key is not four
    bytes; it panics exactly on an unmasked fragment with data and an empty
    key; in every other case it hands the sink, in one call, the first
    byte, the length bytes, the key of a masked frame and as many payload
    bytes as the data has, and turns any error of the sink into
    ErrWritingHeader. *)
Theorem X3_Write_outcomes {W} `{Writer W} (f : WebsocketFragment) (w : W) :
  (snd (Write f w) = Err ErrorMaskKeyLength <->
   MaskBit f = true /\ length (Key f) <> 4%nat) /\
  ((exists p, snd (Write f w) = Panicked p) <->
   MaskBit f = false /\ Key f = [] /\ Data f <> []) /\
  (~ (MaskBit f = true /\ length (Key f) <> 4%nat) ->
   ~ (MaskBit f = false /\ Key f = [] /\ Data f <> []) ->
   exists enc,
     length enc = length (Data f) /\
     Write f w =
     (fst (io_Write w (firstByteOf f :: lengthBytes f ++ keyBytes f ++ enc)),
      match snd (io_Write w (firstByteOf f :: lengthBytes f ++ keyBytes f ++ enc)) with
      | Some _ => Err ErrWritingHeader
      | None => Val tt
      end)).
Proof.
  rewrite Write_wire.
  pose proof (xorEncrypt_outcome (Data f) (Key f)) as X2.
  destruct (MaskBit f) eqn:Hm; cbn [andb].
  - destruct (Nat.eqb_spec (length (Key f)) 4) as [Hlen | Hlen]; cbn [negb].
    + destruct (xorEncrypt (Data f) (Key f)) as [enc | e | p]; [| done |].
      * destruct X2 as [Henc _].
        destruct (io_Write w _) as [w' [e |]] eqn:Hio; cbn [snd].
        -- split; [split; [done | tauto] |].
           split; [split; [by intros [p ?] | by intros [? _]] |].
           intros _ _. exists enc. by rewrite Hio.
        -- split; [split; [done | tauto] |].
           split; [split; [by intros [p ?] | by intros [? _]] |].
           intros _ _. exists enc. by rewrite Hio.
      * destruct X2 as (_ & _ & Hk). rewrite Hk in Hlen. done.
    + cbn [snd]. split; [done |].
      split; [split; [by intros [p ?] | by intros [? _]] |].
      intros Hno. exfalso. by apply Hno.
  - destruct (xorEncrypt (Data f) (Key f)) as [enc | e | p]; [| done |].
    + destruct X2 as [Henc Hor].
      destruct (io_Write w _) as [w' [e |]] eqn:Hio; cbn [snd].
      * split; [split; [done | by intros [? _]] |].
        split; [split; [by intros [p ?] | intros (_ & Hk & Hd); by destruct Hor] |].
        intros _ _. exists enc. by rewrite Hio.
      * split; [split; [done | by intros [? _]] |].
        split; [split; [by intros [p ?] | intros (_ & Hk & Hd); by destruct Hor] |].
        intros _ _. exists enc. by rewrite Hio.
    + destruct X2 as (_ & Hd & Hk). cbn [snd].
      split; [split; [done | by intros [? _]] |].
      split; [split; [done | by eauto] |].
      intros _ Hno. exfalso. by apply Hno.
Qed.

Lemma X3_Write_outcomes_witness :
  exists enc,
    length enc = length (Data helloFrame) /\
    Write helloFrame ([] : Buffer) =
    (fst (io_Write ([] : Buffer)
            (firstByteOf helloFrame :: lengthBytes helloFrame ++ keyBytes helloFrame ++ enc)),
     match snd (io_Write ([] : Buffer)
                  (firstByteOf helloFrame :: lengthBytes helloFrame ++ keyBytes helloFrame ++ enc)) with
     | Some _ => Err ErrWritingHeader
     | None => Val tt
     end).
Proof.
  apply (X3_Write_outcomes helloFrame ([] : Buffer)).
  - intros [_ Hlen]. by apply Hlen.
  - intros [Hm _]. discriminate Hm.
Defined.

Lemma lengthBytes_length (f : WebsocketFragment) :
  len (firstByteOf f :: lengthBytes f ++ keyBytes f) =
  (if PayloadLength f <? 126 then 2 else if PayloadLength f <? 65536 then 4 else 10)
  + (if MaskBit f then len (Key f) else 0).
Proof.
  unfold len, lengthBytes, keyBytes. cbn [length]. rewrite length_app.
  destruct (PayloadLength f <? 126), (PayloadLength f <? 65536), (MaskBit f);
    cbn [length be_bytes8]; lia.
Qed.

(** X4.  The size of an encoding: when Write succeeds into a buffer, it
    has appended two, four or ten bytes for the flags and the length field
    (by the value of PayloadLength: below 126, below 65536, or more), four
    more for the key of a masked fragment, and then one byte for each byte
    of the data, whatever PayloadLength says. *)
Theorem X4_encoding_size (f : WebsocketFragment) (buf out : Buffer) :
  Write f buf = (out, Val tt) ->
  len out = len buf + headerSize f + len (Data f).
Proof.
  rewrite Write_wire. intros Hw.
  pose proof (xorEncrypt_outcome (Data f) (Key f)) as Hx.
  pose proof (lengthBytes_length f) as Hh.
  unfold headerSize.
  destruct (MaskBit f) eqn:Hm; cbn [andb] in Hw.
  - destruct (Nat.eqb_spec (length (Key f)) 4) as [Hlen | Hlen]; [| done].
    cbn [negb] in Hw.
    destruct (xorEncrypt (Data f) (Key f)) as [enc | e | p]; [| done | done].
    destruct Hx as [Henc _]. injection Hw as <-.
    unfold len in *. rewrite length_app. cbn [length] in *.
    rewrite app_assoc, length_app, Henc. rewrite Hlen in Hh. lia.
  - destruct (xorEncrypt (Data f) (Key f)) as [enc | e | p]; [| done | done].
    destruct Hx as [Henc _]. injection Hw as <-.
    unfold len in *. rewrite length_app. cbn [length] in *.
    rewrite app_assoc, length_app, Henc. lia.
Qed.

Lemma X4_encoding_size_witness :
  len helloBytes = len ([] : Buffer) + headerSize helloFrame + len (Data helloFrame).
Proof. apply (X4_encoding_size helloFrame [] helloBytes). reflexivity. Defined.

(** ** What ReadWebsocketFragment does to its source

    The rules of [reads], one for each way the decoder is put together. *)

Section Reads.

Context (B : Z -> Prop).

Lemma reads_ret {A} (a : A) (Q : A -> Prop) : Q a -> reads B (ret a) Q.
Proof.
  intros Ha rd Hrd. cbn. split; [done |]. split; [done |].
  exists []. by split.
Qed.

Lemma reads_lift_Val {A} (a : A) (Q : A -> Prop) : Q a -> reads B (lift (Val a)) Q.
Proof. apply reads_ret. Qed.

Lemma reads_ReadByte : reads B ReadByte B.
Proof.
  intros [src e] Hrd. unfold ReadByte. cbn in *.
  destruct src as [| c rest]; [done |].
  apply Forall_cons in Hrd as [Hc Hrest].
  split; [done |]. split; [done |]. exists [c]. split; [done | by constructor].
Qed.

Lemma reads_bind {A C} (m : M Reader A) (k : A -> M Reader C)
    (Q : A -> Prop) (R : C -> Prop) :
  reads B m Q -> (forall a, Q a -> reads B (k a) R) -> reads B (bind m k) R.
Proof.
  intros Hm Hk rd Hrd. unfold bind. specialize (Hm rd Hrd).
  destruct (m rd) as [rd1 [a | e | p]]; [| done | done].
  destruct Hm as (Ha & Herr & used & Hused & HB).
  assert (Hrd1 : Forall B (pending rd1)).
  { rewrite Hused in Hrd. by apply Forall_app in Hrd as [_ ?]. }
  specialize (Hk a Ha rd1 Hrd1).
  destruct (k a rd1) as [rd2 [c | e | p]]; [| | done].
  - destruct Hk as (Hc & Herr2 & used2 & Hused2 & HB2).
    split; [done |]. split; [congruence |].
    exists (used ++ used2). split.
    + by rewrite Hused, Hused2, app_assoc.
    + by apply Forall_app.
  - destruct Hk as (-> & Hnil & Herr2). repeat split; congruence.
Qed.

Lemma reads_weaken {A} (m : M Reader A) (Q Q' : A -> Prop) :
  (forall a, Q a -> Q' a) -> reads B m Q -> reads B m Q'.
Proof.
  intros HQ Hm rd Hrd. specialize (Hm rd Hrd).
  destruct (m rd) as [rd' [a | e | p]]; [| done | done].
  destruct Hm as (Ha & Hrest). split; [by apply HQ | done].
Qed.

Lemma reads_readLenn (n : nat) (lenn : list byte) :
  Forall B lenn ->
  reads B (readLenn n lenn) (fun l => length l = (length lenn + n)%nat /\ Forall B l).
Proof.
  revert lenn. induction n as [| n IH]; intros lenn Hl; cbn [readLenn].
  - apply reads_ret. split; [lia | done].
  - apply (reads_bind _ _ B); [apply reads_ReadByte |].
    intros l Hb. eapply reads_weaken; [| apply IH].
    + intros l' [Hlen HB]. rewrite length_app in Hlen. cbn in Hlen. split; [lia | done].
    + apply Forall_app. split; [done | by constructor].
Qed.

Lemma reads_readKey (n i : nat) (key : list byte) (K : Z -> Prop) :
  (forall b, B b -> K b) ->
  Forall K key ->
  reads B (readKey n i key) (fun k => length k = length key /\ Forall K k).
Proof.
  intros HBK. revert i key. induction n as [| n IH]; intros i key Hk; cbn [readKey].
  - by apply reads_ret.
  - apply (reads_bind _ _ B); [apply reads_ReadByte |].
    intros k Hb. eapply reads_weaken; [| apply IH].
    + intros k' [Hlen HK]. rewrite length_insert in Hlen. done.
    + apply Forall_insert; [done | by apply HBK].
Qed.

Lemma readData_loop_reads (payloadLength : Z) (src data : list byte) (i : Z)
    (e : error) :
  Forall B src -> Forall B data ->
  match readData_loop payloadLength i data src e with
  | (rd', Val d) =>
      (len d = len data + Z.max 0 (payloadLength - i) /\ Forall B d) /\
      srcErr rd' = e /\
      exists used, src = used ++ pending rd' /\ Forall B used
  | (rd', Err e') => e' = e /\ pending rd' = [] /\ srcErr rd' = e
  | (rd', Panicked _) => False
  end.
Proof.
  revert data i. induction src as [| c src IH]; intros data i Hsrc Hdata; cbn [readData_loop].
  - destruct (Z.ltb_spec i payloadLength); cbn; [done |].
    split; [split; [lia | done] |]. split; [done |]. exists []. by split.
  - destruct (Z.ltb_spec i payloadLength) as [Hlt | Hge].
    + apply Forall_cons in Hsrc as [Hc Hsrc].
      assert (Hdata' : Forall B (data ++ [c]))
        by (apply Forall_app; split; [done | by constructor]).
      specialize (IH (data ++ [c]) (i + 1) Hsrc Hdata').
      destruct (readData_loop payloadLength (i + 1) (data ++ [c]) src e)
        as [rd' [d | e' | p]]; [| done | done].
      destruct IH as ((Hlen & Hd) & Herr & used & Hused & HB).
      split; [split; [| done] |].
      * unfold len in *. rewrite length_app in Hlen. cbn [length] in Hlen. lia.
      * split; [done |]. exists (c :: used). split; [by rewrite Hused | by constructor].
    + cbn. split; [split; [lia | done] |]. split; [done |]. exists []. by split.
Qed.

Lemma reads_readData (payloadLength : Z) :
  reads B (readData payloadLength)
    (fun d => len d = Z.max 0 payloadLength /\ Forall B d).
Proof.
  intros [src e] Hrd. unfold readData. cbn [pending srcErr] in *.
  pose proof (readData_loop_reads payloadLength src [] 0 e Hrd (Forall_nil_2 B)) as Hloop.
  destruct (readData_loop payloadLength 0 [] src e) as [rd' [d | e' | p]]; [| done | done].
  destruct Hloop as ((Hlen & Hd) & Hrest). split; [| done].
  split; [| done]. unfold len in *. cbn [length] in Hlen. lia.
Qed.

End Reads.

Lemma land_low_bits (b : Z) (n : Z) :
  0 <= n -> 0 <= Z.land b (Z.ones n) < 2 ^ n.
Proof.
  intros Hn. rewrite Z.land_ones by done. apply Z.mod_pos_bound.
  by apply Z.pow_pos_nonneg.
Qed.

Lemma lxor_byte (a b : Z) : is_byte a -> is_byte b -> is_byte (Z.lxor a b).
Proof.
  unfold is_byte. intros Ha Hb.
  assert (Hnn : 0 <= Z.lxor a b) by (apply Z.lxor_nonneg; lia).
  split; [done |].
  destruct (Z.eq_dec (Z.lxor a b) 0) as [-> | Hnz]; [lia |].
  change 256 with (2 ^ 8). apply Z.log2_lt_pow2; [lia |].
  eapply Z.le_lt_trans; [apply Z.log2_lxor; lia |].
  apply Z.max_lub_lt.
  - destruct (Z.eq_dec a 0) as [-> | ?]; [done |]. apply Z.log2_lt_pow2; lia.
  - destruct (Z.eq_dec b 0) as [-> | ?]; [done |]. apply Z.log2_lt_pow2; lia.
Qed.

Lemma xorCycle_bytes (key data : list byte) (i : nat) :
  key <> [] -> Forall is_byte key -> Forall is_byte data ->
  Forall is_byte (xorCycle i data key).
Proof.
  intros Hne Hkey Hdata. revert i.
  induction Hdata as [| b data Hb Hdata IH]; intros i; cbn [xorCycle]; constructor.
  - apply lxor_byte; [done |].
    assert (Hlt : (i mod length key < length key)%nat)
      by (apply Nat.mod_upper_bound; by destruct key).
    pose proof (list_lookup_lookup_total_lt key _ Hlt) as Hk.
    by apply (Forall_lookup_1 _ _ _ _ Hkey Hk).
  - apply IH.
Qed.

Lemma Uint16_range (l1 l2 : byte) :
  is_byte l1 -> is_byte l2 -> 0 <= Z.lor l2 (l1 ≪ 8) < 65536.
Proof.
  unfold is_byte. intros H1 H2. rewrite lor_shiftl_add by lia.
  change (2 ^ 8) with 256. lia.
Qed.

Lemma Uint64_range (b0 b1 b2 b3 b4 b5 b6 b7 : byte) :
  is_byte b0 -> is_byte b1 -> is_byte b2 -> is_byte b3 ->
  is_byte b4 -> is_byte b5 -> is_byte b6 -> is_byte b7 ->
  0 <= Z.lor (Z.lor (Z.lor (Z.lor (Z.lor (Z.lor (Z.lor
         b7 (b6 ≪ 8)) (b5 ≪ 16)) (b4 ≪ 24)) (b3 ≪ 32))
         (b2 ≪ 40)) (b1 ≪ 48)) (b0 ≪ 56) < 2 ^ 64.
Proof.
  unfold is_byte. intros.
  rewrite (lor_shiftl_add b7 b6 8) by lia.
  rewrite (lor_shiftl_add _ b5 16) by lia.
  rewrite (lor_shiftl_add _ b4 24) by lia.
  rewrite (lor_shiftl_add _ b3 32) by lia.
  rewrite (lor_shiftl_add _ b2 40) by lia.
  rewrite (lor_shiftl_add _ b1 48) by lia.
  rewrite (lor_shiftl_add _ b0 56) by lia.
  lia.
Qed.

Section ReadsFragment.

Context (B : Z -> Prop).

Lemma reads_readLength (L : Z) :
  0 <= L < 128 ->
  reads B (readLength L) (fun n => (forall b, B b -> is_byte b) -> is_uint64 n).
Proof.
  intros HL. unfold readLength.
  destruct (Z.eqb_spec L 126) as [-> | H126].
  - apply (reads_bind _ _ _ B); [apply reads_ReadByte |]. intros l1 H1.
    apply (reads_bind _ _ _ B); [apply reads_ReadByte |]. intros l2 H2.
    apply reads_lift_Val. intros HB. unfold is_uint64.
    pose proof (Uint16_range l1 l2 (HB _ H1) (HB _ H2)). lia.
  - destruct (Z.eqb_spec L 127) as [-> | H127].
    + eapply reads_bind; [apply reads_readLenn; constructor |].
      intros lenn [Hlen Hl].
      destruct lenn as [| b0 [| b1 [| b2 [| b3 [| b4 [| b5 [| b6 [| b7 [| b8 l]]]]]]]]];
        try done.
      apply reads_lift_Val. intros HB. unfold is_uint64.
      repeat match goal with H : Forall B (_ :: _) |- _ => apply Forall_cons in H as [? H] end.
      apply Uint64_range; by apply HB.
    + apply reads_ret. intros _. unfold is_uint64. lia.
Qed.

Lemma reads_readMaskKey (mask : bool) :
  reads B (readMaskKey mask)
    (fun k => length k = 4%nat /\ (mask = false -> k = replicate 4 0) /\
              ((forall b, B b -> is_byte b) -> Forall is_byte k)).
Proof.
  unfold readMaskKey. destruct mask.
  - eapply reads_weaken;
      [| apply (reads_readKey B 4 0 (replicate 4 0)
                  (fun k => (forall b, B b -> is_byte b) -> is_byte k))].
    + intros k [Hlen Hk]. split; [done |]. split; [done |].
      intros HB. eapply Forall_impl; [exact Hk |]. intros x Hx. by apply Hx.
    + intros b Hb HB. by apply HB.
    + repeat constructor; unfold is_byte; lia.
  - apply reads_ret. split; [done |]. split; [done |].
    intros _. repeat constructor; unfold is_byte; lia.
Qed.

Lemma reads_ReadWebsocketFragment :
  reads B ReadWebsocketFragment
    (fun g =>
       length (Key g) = 4%nat /\
       (MaskBit g = false -> Key g = replicate 4 0) /\
       0 <= OpCode g < 16 /\
       len (Data g) = Z.max 0 (PayloadLength g) /\
       ((forall b, B b -> is_byte b) ->
        is_uint64 (PayloadLength g) /\ Forall is_byte (Key g) /\ Forall is_byte (Data g))).
Proof.
  rewrite ReadWebsocketFragment_stages.
  apply (reads_bind _ _ _ B); [apply reads_ReadByte |]. intros b0 Hb0.
  apply (reads_bind _ _ _ B); [apply reads_ReadByte |]. intros b1 Hb1.
  eapply reads_bind; [apply reads_readLength; apply (land_low_bits b1 7); lia |].
  intros n Hn.
  eapply reads_bind; [apply reads_readMaskKey |]. intros key (Hlen & Hzero & Hkey).
  eapply reads_bind; [apply reads_readData |]. intros data [Hdlen Hdata].
  assert (Hne : key <> []) by (by destruct key).
  rewrite (xorEncrypt_cycle data key Hne).
  eapply reads_bind; [apply (reads_lift_Val B _ (fun d => d = xorCycle 0 data key)); done |].
  intros d ->. apply reads_ret. cbn.
  split; [done |]. split; [done |].
  split; [apply (land_low_bits b0 4); lia |].
  split; [unfold len in *; by rewrite xorCycle_length |].
  intros HB. split; [by apply Hn |]. split; [by apply Hkey |].
  apply xorCycle_bytes; [done | by apply Hkey |].
  eapply Forall_impl; [exact Hdata | exact HB].
Qed.

End ReadsFragment.

(** X5.  ReadWebsocketFragment never panics, whatever the source holds.
    When it fails, the error is the one the source reports at its end, and
    the source has been read to its end; when it succeeds, the fragment
    has a four-byte key and an opcode below 16, and the source is left with
    a suffix of what it held. *)
Theorem X5_decoder_never_panics (rd : Reader) :
  match ReadWebsocketFragment rd with
  | (rd', Val g) =>
      length (Key g) = 4%nat /\ 0 <= OpCode g < 16 /\ srcErr rd' = srcErr rd /\
      exists used, pending rd = used ++ pending rd'
  | (rd', Err e) => e = srcErr rd /\ pending rd' = []
  | (_, Panicked _) => False
  end.
Proof.
  pose proof (reads_ReadWebsocketFragment (fun _ => True) rd) as Hreads.
  assert (Htrue : Forall (fun _ : Z => True) (pending rd))
    by (apply Forall_forall; done).
  specialize (Hreads Htrue).
  destruct (ReadWebsocketFragment rd) as [rd' [g | e | p]]; [| | done].
  - destruct Hreads as ((Hkey & _ & Hop & _) & Herr & used & Hused & _). eauto.
  - destruct Hreads as (He & Hnil & _). done.
Qed.

Lemma decoded_well_formed (rd rd' : Reader) (g : WebsocketFragment) :
  Forall is_byte (pending rd) ->
  ReadWebsocketFragment rd = (rd', Val g) ->
  well_formed g /\ canonical g = g /\
  Forall is_byte (Key g) /\ Forall is_byte (Data g).
Proof.
  intros Hrd Hread.
  pose proof (reads_ReadWebsocketFragment is_byte rd Hrd) as Hreads.
  rewrite Hread in Hreads.
  destruct Hreads as ((Hkey & Hzero & Hop & Hlen & Hbytes) & _).
  destruct (Hbytes (fun b Hb => Hb)) as (Hn & Hk & Hd).
  assert (Hlen' : len (Data g) = PayloadLength g) by (unfold is_uint64 in Hn; lia).
  split; [| split; [| done]].
  - unfold well_formed. split; [done |]. split; [done |]. split; [done |].
    destruct (MaskBit g); [done |]. rewrite (Hzero eq_refl). split; [done |].
    by repeat constructor.
  - unfold canonical, withKeyData, decodedKey. destruct g as [? ? ? ? ? m ? k d]. cbn in *.
    destruct m; [done |]. by rewrite (Hzero eq_refl).
Qed.

(** X6.  On a source of bytes, every fragment ReadWebsocketFragment returns
    has a payload length that is the length of its data and fits 64 bits, a
    key of four bytes, all zero when the fragment is unmasked, and bytes
    only in key and data. *)
Theorem X6_decoded_fragment_invariants (rd rd' : Reader) (g : WebsocketFragment) :
  Forall is_byte (pending rd) ->
  ReadWebsocketFragment rd = (rd', Val g) ->
  len (Data g) = PayloadLength g /\ is_uint64 (PayloadLength g) /\
  length (Key g) = 4%nat /\ (MaskBit g = false -> Key g = [0; 0; 0; 0]) /\
  Forall is_byte (Key g) /\ Forall is_byte (Data g).
Proof.
  intros Hrd Hread.
  pose proof (reads_ReadWebsocketFragment is_byte rd Hrd) as Hreads.
  rewrite Hread in Hreads.
  destruct Hreads as ((Hkey & Hzero & Hop & Hlen & Hbytes) & _).
  destruct (Hbytes (fun b Hb => Hb)) as (Hn & Hk & Hd).
  split; [unfold is_uint64 in Hn; lia |].
  split; [done |]. split; [done |]. split; [exact Hzero |]. by split.
Qed.

Lemma helloBytes_are_bytes : Forall is_byte helloBytes.
Proof. unfold helloBytes. repeat constructor; unfold is_byte; lia. Qed.

Lemma X6_decoded_fragment_invariants_witness :
  len (Data helloFrame) = PayloadLength helloFrame /\
  is_uint64 (PayloadLength helloFrame) /\
  length (Key helloFrame) = 4%nat /\
  (MaskBit helloFrame = false -> Key helloFrame = [0; 0; 0; 0]) /\
  Forall is_byte (Key helloFrame) /\ Forall is_byte (Data helloFrame).
Proof.
  apply (X6_decoded_fragment_invariants (NewReader helloBytes) (NewReader []) helloFrame).
  - apply helloBytes_are_bytes.
  - reflexivity.
Defined.

(** ** Well-formed fragments on the wire *)

Lemma well_formed_key (f : WebsocketFragment) :
  well_formed f ->
  Key f <> [] /\ (MaskBit f = true -> length (Key f) = 4%nat).
Proof.
  intros (_ & _ & _ & Hkey). destruct (MaskBit f).
  - split; [by destruct (Key f) | done].
  - split; [tauto | done].
Qed.

Lemma encode_well_formed (f : WebsocketFragment) :
  well_formed f ->
  encode f = (firstByteOf f :: lengthBytes f ++ keyBytes f ++ xorCycle 0 (Data f) (Key f),
              Val tt).
Proof.
  intros Hwf. destruct (well_formed_key f Hwf) as [Hne Hk4].
  apply encode_wire; [done | by apply xorEncrypt_cycle].
Qed.

Lemma unmask_payload (f : WebsocketFragment) :
  well_formed f ->
  xorEncrypt (xorCycle 0 (Data f) (Key f)) (decodedKey f) = Val (Data f).
Proof.
  intros Hwf. destruct (well_formed_key f Hwf) as [Hne _].
  destruct Hwf as (_ & _ & _ & Hkey). unfold decodedKey.
  destruct (MaskBit f).
  - rewrite xorEncrypt_cycle by done. by rewrite xorCycle_involutive.
  - destruct Hkey as [_ Hzero]. rewrite (xorCycle_zero_key _ _ _ Hne Hzero).
    rewrite xorEncrypt_cycle by done.
    rewrite xorCycle_zero_key; [done | done | by repeat constructor].
Qed.

Lemma Read_well_formed (f : WebsocketFragment) (rest : list byte) (e : error) :
  well_formed f ->
  ReadWebsocketFragment {| pending := fst (encode f) ++ rest; srcErr := e |}
  = ({| pending := rest; srcErr := e |}, Val (canonical f)).
Proof.
  intros Hwf. rewrite (encode_well_formed f Hwf). cbn [fst].
  destruct (well_formed_key f Hwf) as [Hne Hk4].
  pose proof Hwf as (Hn & Hlen & Hop & _).
  pose proof (Read_wire f (xorCycle 0 (Data f) (Key f)) rest e Hop Hn) as Hread.
  rewrite (unmask_payload f Hwf) in Hread.
  cbn [app]. rewrite <- !app_assoc. apply Hread; [| done].
  unfold len. by rewrite xorCycle_length.
Qed.

Lemma canonical_same (f : WebsocketFragment) : same_fragment f (canonical f).
Proof.
  unfold same_fragment, canonical, withKeyData, decodedKey. cbn.
  repeat split; try done. intros Hm. by rewrite Hm.
Qed.

Lemma encode_canonical (f : WebsocketFragment) :
  well_formed f -> encode (canonical f) = encode f.
Proof.
  intros Hwf. rewrite (encode_well_formed f Hwf).
  destruct (well_formed_key f Hwf) as [Hne Hk4].
  pose proof Hwf as (Hn & Hlen & Hop & Hkey).
  unfold canonical, decodedKey. destruct (MaskBit f) eqn:Hm.
  - replace (withKeyData f (Key f) (Data f)) with f by (by destruct f).
    rewrite (encode_well_formed f Hwf). reflexivity.
  - destruct Hkey as [_ Hzero].
    rewrite (encode_wire (withKeyData f (replicate 4 0) (Data f)) (Data f)).
    + unfold firstByteOf, lengthBytes, keyBytes, maskFlag, withKeyData. cbn.
      rewrite Hm. by rewrite (xorCycle_zero_key _ _ _ Hne Hzero).
    + cbn [withKeyData MaskBit]. by rewrite Hm.
    + cbn [withKeyData Data Key]. rewrite xorEncrypt_cycle by done.
      rewrite xorCycle_zero_key; [done | done | by repeat constructor].
Qed.

(** X7.  Framing: when the encoding of a well-formed fragment is followed
    by other bytes, ReadWebsocketFragment consumes the encoding and nothing
    more, and returns the fragment (with the all-zero key in place of the
    key of an unmasked one). *)
Theorem X7_decoder_consumes_one_frame (f : WebsocketFragment)
    (rest : list byte) (e : error) :
  well_formed f ->
  ReadWebsocketFragment {| pending := fst (encode f) ++ rest; srcErr := e |}
  = ({| pending := rest; srcErr := e |}, Val (canonical f)) /\
  same_fragment f (canonical f).
Proof. intros Hwf. split; [by apply Read_well_formed | apply canonical_same]. Qed.

Lemma helloFrame_well_formed : well_formed helloFrame.
Proof.
  unfold well_formed, is_uint64. cbn. repeat split; lia.
Qed.

Lemma X7_decoder_consumes_one_frame_witness :
  ReadWebsocketFragment {| pending := fst (encode helloFrame) ++ [0x81; 0x00]; srcErr := EOF |}
  = ({| pending := [0x81; 0x00]; srcErr := EOF |}, Val (canonical helloFrame)) /\
  same_fragment helloFrame (canonical helloFrame).
Proof.
  apply (X7_decoder_consumes_one_frame helloFrame [0x81; 0x00] EOF).
  apply helloFrame_well_formed.
Defined.

(** X8.  Re-encoding is stable: the fragment decoded from the encoding of
    a well-formed fragment encodes to the same bytes again. *)
Theorem X8_reencoding_is_stable (f : WebsocketFragment) :
  well_formed f ->
  exists bs g,
    encode f = (bs, Val tt) /\ decode bs = Val g /\ encode g = (bs, Val tt).
Proof.
  intros Hwf. eexists _, (canonical f).
  split; [by apply encode_well_formed |].
  split.
  - pose proof (Read_well_formed f [] EOF Hwf) as Hread.
    rewrite (encode_well_formed f Hwf) in Hread. cbn [fst] in Hread.
    rewrite app_nil_r in Hread. unfold decode, NewReader. by rewrite Hread.
  - rewrite (encode_canonical f Hwf). by apply encode_well_formed.
Qed.

Lemma X8_reencoding_is_stable_witness :
  exists bs g,
    encode helloFrame = (bs, Val tt) /\ decode bs = Val g /\ encode g = (bs, Val tt).
Proof. apply (X8_reencoding_is_stable helloFrame). apply helloFrame_well_formed. Defined.

Lemma roundtrip_well_formed (f : WebsocketFragment) :
  well_formed f -> roundtrip f = Val (canonical f).
Proof.
  intros Hwf. unfold roundtrip. rewrite (encode_well_formed f Hwf).
  pose proof (Read_well_formed f [] EOF Hwf) as Hread.
  rewrite (encode_well_formed f Hwf) in Hread. cbn [fst] in Hread.
  rewrite app_nil_r in Hread. unfold decode, NewReader. by rewrite Hread.
Qed.

(** X9.  What the decoder returns is a fixed point of the codec: a fragment
    read from a source of bytes is encoded without error and decoded again
    to the very same fragment, key included. *)
Theorem X9_decoded_fragment_roundtrips (rd rd' : Reader) (g : WebsocketFragment) :
  Forall is_byte (pending rd) ->
  ReadWebsocketFragment rd = (rd', Val g) ->
  roundtrip g = Val g.
Proof.
  intros Hrd Hread.
  destruct (decoded_well_formed rd rd' g Hrd Hread) as (Hwf & Hcanon & _).
  rewrite (roundtrip_well_formed g Hwf). by rewrite Hcanon.
Qed.

Lemma X9_decoded_fragment_roundtrips_witness : roundtrip helloFrame = Val helloFrame.
Proof.
  apply (X9_decoded_fragment_roundtrips (NewReader helloBytes) (NewReader []) helloFrame).
  - apply helloBytes_are_bytes.
  - reflexivity.
Defined.

(** ** The relay pump on frames *)

Lemma Write_Buffer (f : WebsocketFragment) (dst : Buffer) :
  Write f dst = (dst ++ fst (encode f), snd (encode f)).
Proof.
  unfold encode. rewrite !Write_wire.
  destruct (MaskBit f && negb (Nat.eqb (length (Key f)) 4)); [by rewrite app_nil_r |].
  destruct (xorEncrypt (Data f) (Key f)); cbn; by rewrite ?app_nil_r.
Qed.

Lemma Write_key4_returns {W} `{Writer W} (f : WebsocketFragment) (w : W) :
  length (Key f) = 4%nat ->
  exists w', Write f w = (w', Val tt) \/ Write f w = (w', Err ErrWritingHeader).
Proof.
  intros Hlen. rewrite Write_wire, Hlen. cbn [Nat.eqb negb]. rewrite andb_false_r.
  rewrite xorEncrypt_cycle by (by destruct (Key f)).
  destruct (io_Write w _) as [w' [e |]]; eauto.
Qed.

Lemma interceptWebsocket_turn_no_handler {W} `{Writer W} (st : Reader * W) :
  exists st', interceptWebsocket_turn None st = (st', Val Continue).
Proof.
  destruct st as [scanner dst]. unfold interceptWebsocket_turn.
  destruct (match Peek1 scanner with (_, Err e) => bool_decide (e = EOF) | _ => false end);
    [eauto |].
  pose proof (reads_ReadWebsocketFragment (fun _ => True) scanner) as X.
  assert (Htrue : Forall (fun _ : Z => True) (pending scanner))
    by (apply Forall_forall; done).
  specialize (X Htrue).
  destruct (ReadWebsocketFragment scanner) as [scanner' [g | e | p]]; [| eauto | done].
  destruct X as ((Hkey & _) & _).
  destruct (Write_key4_returns g dst Hkey) as [dst' [-> | ->]]; eauto.
Qed.

Lemma interceptWebsocket_loop_no_handler {W} `{Writer W} (turns : nat)
    (st : Reader * W) :
  exists st', interceptWebsocket_loop turns None st = Spinning st'.
Proof.
  revert st. induction turns as [| turns IH]; intros st; cbn [interceptWebsocket_loop].
  - eauto.
  - destruct (interceptWebsocket_turn_no_handler st) as [st' ->]. apply IH.
Qed.

(** X10.  Without a handler the pump neither returns nor panics, whatever
    the source delivers and however the sink answers: after any number of
    turns it is still in its loop. *)
Theorem X10_pump_without_handler_never_stops {W} `{Writer W} (turns : nat)
    (dst : W) (src : Reader) :
  exists st, interceptWebsocket turns dst src None = Spinning st.
Proof. apply interceptWebsocket_loop_no_handler. Qed.

Lemma interceptWebsocket_turn_frame {W} `{Writer W} (f : WebsocketFragment)
    (rest : list byte) (e : error) (dst : W) (handler : Handler) :
  well_formed f ->
  interceptWebsocket_turn handler
    ({| pending := fst (encode f) ++ rest; srcErr := e |}, dst)
  = match (match handler with Some h => h (canonical f) | None => Some (canonical f) end) with
    | None => (({| pending := rest; srcErr := e |}, dst), Panicked NilDereference)
    | Some g =>
        match Write g dst with
        | (dst', Panicked p) => (({| pending := rest; srcErr := e |}, dst'), Panicked p)
        | (dst', _) => (({| pending := rest; srcErr := e |}, dst'), Val Continue)
        end
    end.
Proof.
  intros Hwf. unfold interceptWebsocket_turn.
  rewrite (Read_well_formed f rest e Hwf).
  rewrite (encode_well_formed f Hwf). reflexivity.
Qed.

Lemma interceptWebsocket_loop_relays (fs : list WebsocketFragment)
    (rest : list byte) (e : error) (dst : Buffer) (more : nat) :
  Forall well_formed fs ->
  interceptWebsocket_loop (length fs + more) None
    ({| pending := wireOf fs ++ rest; srcErr := e |}, dst)
  = interceptWebsocket_loop more None
      ({| pending := rest; srcErr := e |}, dst ++ wireOf fs).
Proof.
  intros Hfs. revert dst.
  induction Hfs as [| f fs Hwf Hfs IH]; intros dst.
  - cbn. by rewrite app_nil_r.
  - cbn [length Nat.add interceptWebsocket_loop wireOf flat_map].
    rewrite <- app_assoc.
    rewrite (interceptWebsocket_turn_frame f _ e dst None Hwf).
    rewrite Write_Buffer, (encode_canonical f Hwf), (encode_well_formed f Hwf).
    cbn [fst snd]. fold (wireOf fs). rewrite IH.
    by rewrite <- app_assoc.
Qed.

(** X11.  Without a handler the pump is transparent: when the source
    delivers the encodings of well-formed fragments, one after the other,
    then, one turn for each fragment later, the buffer holds those bytes
    unchanged, appended to what it held, and the source is left with what
    followed them. *)
Theorem X11_pump_relays_frames_unchanged (fs : list WebsocketFragment)
    (rest : list byte) (e : error) (dst : Buffer) :
  Forall well_formed fs ->
  interceptWebsocket (length fs) dst
    {| pending := wireOf fs ++ rest; srcErr := e |} None
  = Spinning ({| pending := rest; srcErr := e |}, dst ++ wireOf fs).
Proof.
  intros Hfs. unfold interceptWebsocket.
  pose proof (interceptWebsocket_loop_relays fs rest e dst 0 Hfs) as Hloop.
  rewrite Nat.add_0_r in Hloop. exact Hloop.
Qed.

Lemma X11_pump_relays_frames_witness :
  interceptWebsocket 2 ([] : Buffer)
    {| pending := wireOf [helloFrame; helloFrame] ++ [0x81]; srcErr := EOF |} None
  = Spinning ({| pending := [0x81]; srcErr := EOF |}, [] ++ wireOf [helloFrame; helloFrame]).
Proof.
  apply (X11_pump_relays_frames_unchanged [helloFrame; helloFrame] [0x81] EOF []).
  repeat constructor; apply helloFrame_well_formed.
Defined.

(** X12.  A handler that returns nil stops the pump with a panic: the
    fragment has been taken from the source, Write is called on the nil
    pointer, and nothing reaches the sink. *)
Theorem X12_nil_from_handler_crashes_pump (f : WebsocketFragment)
    (rest : list byte) (e : error) (dst : Buffer)
    (h : WebsocketFragment -> option WebsocketFragment) (turns : nat) :
  well_formed f ->
  h (canonical f) = None ->
  interceptWebsocket (S turns) dst
    {| pending := fst (encode f) ++ rest; srcErr := e |} (Some h)
  = Crashed ({| pending := rest; srcErr := e |}, dst) NilDereference.
Proof.
  intros Hwf Hnil. unfold interceptWebsocket. cbn [interceptWebsocket_loop].
  rewrite (interceptWebsocket_turn_frame f rest e dst (Some h) Hwf).
  by rewrite Hnil.
Qed.

Lemma X12_nil_from_handler_witness :
  interceptWebsocket 3 ([9] : Buffer)
    {| pending := fst (encode helloFrame) ++ []; srcErr := EOF |} (Some (fun _ => None))
  = Crashed ({| pending := []; srcErr := EOF |}, [9]) NilDereference.
Proof.
  apply (X12_nil_from_handler_crashes_pump helloFrame [] EOF [9] (fun _ => None) 2).
  - apply helloFrame_well_formed.
  - reflexivity.
Defined.

Lemma interceptWebsocket_loop_consumes {W} `{Writer W} (fs : list WebsocketFragment)
    (rest : list byte) (e : error) (dst : W) :
  Forall well_formed fs ->
  exists dst',
    interceptWebsocket_loop (length fs) None
      ({| pending := wireOf fs ++ rest; srcErr := e |}, dst)
    = Spinning ({| pending := rest; srcErr := e |}, dst').
Proof.
  intros Hfs. revert dst.
  induction Hfs as [| f fs Hwf Hfs IH]; intros dst.
  - cbn. eauto.
  - cbn [length interceptWebsocket_loop wireOf flat_map]. rewrite <- app_assoc.
    rewrite (interceptWebsocket_turn_frame f _ e dst None Hwf).
    assert (Hk : length (Key (canonical f)) = 4%nat).
    { destruct Hwf as (_ & _ & _ & Hkey). unfold canonical, decodedKey. cbn.
      destruct (MaskBit f); [done | reflexivity]. }
    destruct (Write_key4_returns (canonical f) dst Hk) as [dst' [-> | ->]];
      fold (wireOf fs); apply IH.
Qed.

(** X13.  The pump does not look at the result of Write: whether the sink
    takes the bytes or fails, each well-formed frame is taken from the
    source and the loop goes on, so that frames sent to a failing sink are
    lost without a trace. *)
Theorem X13_pump_ignores_write_errors {W} `{Writer W} (fs : list WebsocketFragment)
    (rest : list byte) (e : error) (dst : W) :
  Forall well_formed fs ->
  exists dst',
    interceptWebsocket (length fs) dst
      {| pending := wireOf fs ++ rest; srcErr := e |} None
    = Spinning ({| pending := rest; srcErr := e |}, dst').
Proof. apply interceptWebsocket_loop_consumes. Qed.

Lemma X13_pump_ignores_write_errors_witness :
  exists dst',
    interceptWebsocket 1 Broken
      {| pending := wireOf [helloFrame] ++ []; srcErr := EOF |} None
    = Spinning ({| pending := []; srcErr := EOF |}, dst').
Proof.
  apply (X13_pump_ignores_write_errors [helloFrame] [] EOF Broken).
  repeat constructor; apply helloFrame_well_formed.
Defined.

(** ** The handshake, step by step *)

Lemma websocketHandshake_with_key (req : Request) (n : Net) (key : string)
    (more : list string) :
  Header_index (Req_Header req) "Sec-Websocket-Key" = key :: more ->
  websocketHandshake req n =
  match clientWriteErr n with
  | Some e => (n, Err e)
  | None =>
      ({| toClient := toClient n ++ [WireResponse (switchingProtocols key)];
          clientWriteErr := None; dialErr := dialErr n;
          toTarget :=
            toTarget n ++
            [WireRequest
               (upgradeRequest (EncodeToString (take 16 (entropy n ++ replicate 16 0))))];
          targetAnswer := targetAnswer n;
          entropy := drop 16 (entropy n) |},
       match targetAnswer n with
       | inl e => Err e
       | inr status => if status =? 101 then Val tt else Err ErrUpgrading
       end)
  end.
Proof.
  intros Hkey. unfold websocketHandshake. rewrite Hkey.
  unfold bind, lift, index0, Response_Write_client.
  destruct (clientWriteErr n) as [e |] eqn:Hc; [done |].
  unfold generateWebSocketKey, Request_Write_target, ReadResponse_target.
  cbn [toClient clientWriteErr dialErr toTarget targetAnswer entropy].
  destruct (targetAnswer n) as [e | status]; [reflexivity |].
  destruct (status =? 101); reflexivity.
Qed.



(** X15.  serveWebsocket gives up before anything is sent when the target
    cannot be dialled, even for a request without a key, and, for a request
    with a key, when the client connection refuses the 101 answer: neither
    peer has received anything, the target has not been asked, and no
    random byte has been drawn. *)
Theorem X15_serveWebsocket_early_failures (req : Request) (n : Net) (e : error)
    (key : string) (more : list string) :
  (dialErr n = Some e -> serveWebsocket req n = (n, Val DialFailed)) /\
  (dialErr n = None -> clientWriteErr n = Some e ->
   Header_index (Req_Header req) "Sec-Websocket-Key" = key :: more ->
   serveWebsocket req n = (n, Val (HandshakeFailed e))).
Proof.
  split.
  - intros Hd. unfold serveWebsocket, connectDial. by rewrite Hd.
  - intros Hd Hc Hkey. unfold serveWebsocket, connectDial. rewrite Hd.
    by rewrite (websocketHandshake_with_key req n key more Hkey), Hc.
Qed.

Lemma X15_serveWebsocket_early_failures_witness :
  serveWebsocket upgradeNoKey unreachableNet = (unreachableNet, Val DialFailed) /\
  serveWebsocket upgradeWithKey goneClientNet
  = (goneClientNet, Val (HandshakeFailed (ErrOther 32))).
Proof.
  split.
  - apply (X15_serveWebsocket_early_failures upgradeNoKey unreachableNet (ErrOther 111)
             "" []).
    reflexivity.
  - apply (X15_serveWebsocket_early_failures upgradeWithKey goneClientNet (ErrOther 32)
             "dGhlIHNhbXBsZSBub25jZQ==" []).
    + reflexivity.
    + reflexivity.
    + vm_compute. reflexivity.
Defined.

(** ** The certificate cache, beyond memoization *)

Lemma getCert_other_hosts {R} `{Crypto R} (ca : tls_Certificate) (host h : string)
    (st : Store R) :
  h <> host ->
  certs_lookup (fst (getCert ca host st)) h = certs_lookup st h.
Proof.
  intros Hne. unfold getCert.
  destruct (certs_lookup st host) as [val |] eqn:Hlook; [done |].
  destruct (GenerateCert ca host (crypto st)) as [r [cert | e | p]]; [| done | done].
  unfold certs_lookup. destruct (certs st) as [m |]; [| done].
  cbn. by rewrite lookup_insert_ne.
Qed.

Lemma getCert_keeps_entries {R} `{Crypto R} (ca : tls_Certificate) (host h : string)
    (st : Store R) (c : tls_Certificate) :
  certs_lookup st h = Some c ->
  certs_lookup (fst (getCert ca host st)) h = Some c.
Proof.
  intros Hc. destruct (decide (h = host)) as [-> | Hne].
  - by rewrite (getCert_cached ca host st c Hc).
  - by rewrite getCert_other_hosts.
Qed.

(** X16.  The cache only grows, and only by the host asked for: whatever a
    call of getCert returns, every certificate that was cached is still
    cached under its host afterwards, never replaced, and the entries of
    all other hosts, present or absent, are as before. *)
Theorem X16_getCert_cache_only_grows {R} `{Crypto R} (ca : tls_Certificate)
    (host : string) (st : Store R) :
  (forall h c, certs_lookup st h = Some c ->
               certs_lookup (fst (getCert ca host st)) h = Some c) /\
  (forall h, h <> host ->
             certs_lookup (fst (getCert ca host st)) h = certs_lookup st h).
Proof.
  split.
  - intros h c. apply getCert_keeps_entries.
  - intros h. apply getCert_other_hosts.
Qed.

(** X17.  Before NewProxy has made the map, the package variable certs is
    nil: a call of getCert whose minting succeeds then panics on the
    assignment to the nil map, after the random bytes were drawn. *)
Theorem X17_getCert_panics_on_nil_map {R} `{Crypto R} (ca : tls_Certificate)
    (host : string) (st : Store R) (r : R) (cert : tls_Certificate) :
  certs st = None ->
  GenerateCert ca host (crypto st) = (r, Val cert) ->
  getCert ca host st = ({| certs := None; crypto := r |}, Panicked NilMapAssignment).
Proof.
  intros Hnil Hgen. unfold getCert, certs_lookup. by rewrite Hnil, Hgen.
Qed.

Lemma X17_getCert_panics_on_nil_map_witness :
  getCert demoCA "example.com" {| certs := None; crypto := [42; 99] |}
  = ({| certs := None; crypto := [] |}, Panicked NilMapAssignment).
Proof.
  apply (X17_getCert_panics_on_nil_map demoCA "example.com"
           {| certs := None; crypto := [42; 99] |} [] mintedCert).
  - reflexivity.
  - reflexivity.
Defined.

(** X18.  How GenerateCert fails.  An issuer whose certificate is not a CA
    is refused with ErrNotCA before any random byte is drawn, and getCert
    passes that on for a host it has not cached, leaving its state as it
    was.  A failure of the serial number draw is reported as
    ErrSerialNumber, whatever the error of the random source was. *)
Theorem X18_GenerateCert_failures {R} `{Crypto R} (ca : tls_Certificate)
    (caLeaf : x509_Certificate) (host : string) (st : Store R) (r : R) (e : error) :
  Leaf ca = Some caLeaf ->
  (IsCA caLeaf = false ->
   GenerateCert ca host (crypto st) = (crypto st, Err ErrNotCA) /\
   (certs_lookup st host = None -> getCert ca host st = (st, Err ErrNotCA))) /\
  (IsCA caLeaf = true ->
   rand_Int (1 ≪ 128) (crypto st) = (r, Err e) ->
   GenerateCert ca host (crypto st) = (r, Err ErrSerialNumber)).
Proof.
  intros Hleaf. split.
  - intros Hca.
    assert (Hgen : GenerateCert ca host (crypto st) = (crypto st, Err ErrNotCA))
      by (unfold GenerateCert; by rewrite Hleaf, Hca).
    split; [done |]. intros Hmiss. unfold getCert. rewrite Hmiss, Hgen.
    by destruct st.
  - intros Hca Hrand. unfold GenerateCert. by rewrite Hleaf, Hca, Hrand.
Qed.

Lemma X18_GenerateCert_failures_witness :
  (GenerateCert
     {| Certificate := [[48]]; PrivateKey := 7;
        Leaf := Some {| SerialNumber := 1; CommonName := "leaf"; NotBefore := 0;
                        NotAfter := 1; KeyUsage := 1; BasicConstraintsValid := true;
                        IsCA := false; IPAddresses := []; DNSNames := [] |} |}
     "example.com" (crypto (freshStore [42; 99]))
   = (crypto (freshStore [42; 99]), Err ErrNotCA)) /\
  GenerateCert demoCA "example.com" (crypto (freshStore [])) = ([], Err ErrSerialNumber).
Proof.
  split.
  - eapply (X18_GenerateCert_failures _ _ "example.com" (freshStore [42; 99]) [] EOF);
      reflexivity.
  - eapply (X18_GenerateCert_failures demoCA _ "example.com" (freshStore [])
              [] (ErrOther 1)); reflexivity.
Defined.

(** X19.  What a minted certificate was asked to be.  When GenerateCert
    returns a certificate, the issuer is a CA, and the DER bytes come from
    one signing request whose template names the host as common name, is
    valid from one hour before the clock reading for twenty-four hours,
    carries a serial number drawn below 2^128, is no CA, and has exactly
    one subject alternative name: the IP address when the host parses as
    one, the DNS name otherwise. *)
Theorem X19_GenerateCert_template {R} `{Crypto R} (ca : tls_Certificate)
    (host : string) (r r' : R) (cert : tls_Certificate) :
  GenerateCert ca host r = (r', Val cert) ->
  exists caLeaf template r1 r2 der,
    Leaf ca = Some caLeaf /\ IsCA caLeaf = true /\
    rand_Int (2 ^ 128) r = (r1, Val (SerialNumber template)) /\
    ecdsa_GenerateKey_P384 r1 = (r2, Val (PrivateKey cert)) /\
    x509_CreateCertificate template caLeaf (ecdsa_Public (PrivateKey cert))
      (PrivateKey ca) r2 = (r', Val der) /\
    Certificate cert = [der] /\ Leaf cert = x509_ParseCertificate der /\
    CommonName template = host /\
    NotBefore template = time_Now r - 3600 /\
    NotAfter template = NotBefore template + 24 * 3600 /\
    KeyUsage template = KeyUsageDigitalSignature /\ IsCA template = false /\
    match net_ParseIP host with
    | Some ip => IPAddresses template = [ip] /\ DNSNames template = []
    | None => IPAddresses template = [] /\ DNSNames template = [host]
    end.
Proof.
  unfold GenerateCert. intros Hgen.
  destruct (Leaf ca) as [caLeaf |]; [| done].
  destruct (IsCA caLeaf) eqn:Hca; [| done]. cbn [negb] in Hgen.
  change (1 ≪ 128) with (2 ^ 128) in Hgen.
  destruct (rand_Int (2 ^ 128) r) as [r1 [serial | e | p]] eqn:Hrand; [| done | done].
  unfold bind, ret in Hgen.
  destruct (ecdsa_GenerateKey_P384 r1) as [r2 [key | e | p]] eqn:Hkey; [| done | done].
  destruct (x509_CreateCertificate _ caLeaf (ecdsa_Public key) (PrivateKey ca) r2)
    as [r3 [der | e | p]] eqn:Hsign; [| done | done].
  injection Hgen as <- <-.
  match type of Hsign with
  | x509_CreateCertificate ?t _ _ _ _ = _ => exists caLeaf, t, r1, r2, der
  end.
  cbn. repeat (split; [first [done | exact Hsign] |]).
  destruct (net_ParseIP host); done.
Qed.

Lemma X19_GenerateCert_template_witness :
  exists caLeaf template r1 r2 der,
    Leaf demoCA = Some caLeaf /\ IsCA caLeaf = true /\
    rand_Int (2 ^ 128) [42; 99] = (r1, Val (SerialNumber template)) /\
    ecdsa_GenerateKey_P384 r1 = (r2, Val (PrivateKey mintedCert)) /\
    x509_CreateCertificate template caLeaf (ecdsa_Public (PrivateKey mintedCert))
      (PrivateKey demoCA) r2 = ([], Val der) /\
    Certificate mintedCert = [der] /\ Leaf mintedCert = x509_ParseCertificate der /\
    CommonName template = "example.com" /\
    NotBefore template = time_Now [42; 99] - 3600 /\
    NotAfter template = NotBefore template + 24 * 3600 /\
    KeyUsage template = KeyUsageDigitalSignature /\ IsCA template = false /\
    match net_ParseIP "example.com" with
    | Some ip => IPAddresses template = [ip] /\ DNSNames template = []
    | None => IPAddresses template = [] /\ DNSNames template = ["example.com"]
    end.
Proof.
  apply (X19_GenerateCert_template demoCA "example.com" [42; 99] [] mintedCert).
  reflexivity.
Defined.

(** X20.  NewProxy makes the package map anew: every certificate cached so
    far is forgotten, for all proxies of the process, and the next call of
    getCert for a host mints again and is the only entry of the map. *)
Theorem X20_NewProxy_empties_cache {R} `{Crypto R} (ca : tls_Certificate)
    (host : string) (st : Store R) (r : R) (cert : tls_Certificate) :
  GenerateCert ca host (crypto st) = (r, Val cert) ->
  certs_lookup (NewProxy_certs st) host = None /\
  getCert ca host (NewProxy_certs st)
  = ({| certs := Some {[ host := cert ]}; crypto := r |}, Val cert).
Proof.
  intros Hgen. split; [apply lookup_empty |].
  unfold getCert, certs_lookup, NewProxy_certs. cbn. rewrite lookup_empty, Hgen.
  by rewrite insert_empty.
Qed.

Lemma X20_NewProxy_empties_cache_witness :
  certs_lookup (NewProxy_certs {| certs := certs (fst firstMint); crypto := [5; 6] |})
    "example.com" = None /\
  getCert demoCA "example.com"
    (NewProxy_certs {| certs := certs (fst firstMint); crypto := [5; 6] |})
  = ({| certs := Some {[ "example.com" :=
          {| Certificate := [be_bytes8 5]; PrivateKey := 6; Leaf := None |} ]};
        crypto := [] |},
     Val {| Certificate := [be_bytes8 5]; PrivateKey := 6; Leaf := None |}).
Proof.
  apply (X20_NewProxy_empties_cache demoCA "example.com"
           {| certs := certs (fst firstMint); crypto := [5; 6] |}).
  reflexivity.
Defined.

(** ** Forwarding, beyond the short circuit *)

(** X21.  The session of the context is read only for the handler.  With a
    request handler set and a context that carries no session, forwardReq
    panics on the type assertion and sends nothing; without a handler the
    context plays no part in what forwardReq does. *)
Theorem X21_forwardReq_session_only_for_handler `{NetURL} (p : Proxy)
    (ctx : Context) (req : Request) (dest : string) (up : Upstream) :
  (HandleRequest p <> None ->
   forwardReq p None req dest up = (up, Panicked InterfaceConversion)) /\
  (HandleRequest p = None ->
   forwardReq p ctx req dest up = forwardReq p None req dest up).
Proof.
  unfold forwardReq. split.
  - intros Hset. by destruct (HandleRequest p).
  - intros ->. reflexivity.
Qed.

Lemma X21_forwardReq_session_witness :
  forwardReq (H := permissiveURL) passProxy None plainRequest "http://h/" quietUpstream
  = (quietUpstream, Panicked InterfaceConversion) /\
  forwardReq (H := permissiveURL) {| HandleRequest := None; HandleResponse := None |}
    (Some 7) plainRequest "http://h/" quietUpstream
  = forwardReq (H := permissiveURL) {| HandleRequest := None; HandleResponse := None |}
      None plainRequest "http://h/" quietUpstream.
Proof.
  split.
  - apply (proj1 (X21_forwardReq_session_only_for_handler (H := permissiveURL)
                    passProxy None plainRequest "http://h/" quietUpstream)).
    discriminate.
  - apply (proj2 (X21_forwardReq_session_only_for_handler (H := permissiveURL)
                    {| HandleRequest := None; HandleResponse := None |} (Some 7)
                    plainRequest "http://h/" quietUpstream)).
    reflexivity.
Defined.

Lemma forwardReq_calls `{NetURL} (p : Proxy) (ctx : Context) (req : Request)
    (dest : string) (up : Upstream) :
  answer (fst (forwardReq p ctx req dest up)) = answer up /\
  (calls (fst (forwardReq p ctx req dest up)) = calls up \/
   exists sent u,
     calls (fst (forwardReq p ctx req dest up)) = calls up ++ [sent] /\
     url_Parse dest = inl u /\
     RequestURI sent = "" /\
     Scheme (Req_URL sent) = Scheme u /\ URL_Host (Req_URL sent) = URL_Host u).
Proof.
  unfold forwardReq.
  destruct (match HandleRequest p with
            | Some handle =>
                match ctx with
                | Some session => Val (handle session req)
                | None => Panicked InterfaceConversion
                end
            | None => Val (req, None)
            end) as [[req' [hResp |]] | e | pn]; cbn; try (split; [done | by left]).
  destruct (url_Parse dest) as [u | err] eqn:Hparse; cbn; [| split; [done | by left]].
  split; [done |]. right. eexists _, u. repeat split; done.
Qed.

(** X22.  One call of forwardReq sends at most one request upstream, after
    those already sent, and does not touch what the remote end answers.
    A request it sends has an empty RequestURI, as the HTTP client
    demands, and the scheme and host of the parsed destination. *)
Theorem X22_forwardReq_at_most_one_call `{NetURL} (p : Proxy) (ctx : Context)
    (req : Request) (dest : string) (up : Upstream) :
  answer (fst (forwardReq p ctx req dest up)) = answer up /\
  (calls (fst (forwardReq p ctx req dest up)) = calls up \/
   exists sent u,
     calls (fst (forwardReq p ctx req dest up)) = calls up ++ [sent] /\
     url_Parse dest = inl u /\
     RequestURI sent = "" /\
     Scheme (Req_URL sent) = Scheme u /\ URL_Host (Req_URL sent) = URL_Host u).
Proof. apply forwardReq_calls. Qed.

(** ** The plain-text branch of ServeHTTP *)

(** X23.  A response made by the request handler still passes the response
    handler.  In the plain-text branch, when HandleRequest returns a
    response, nothing is sent upstream and HandleResponse is called with
    the same session, with that response, and with the request as it was
    before HandleRequest changed it (the clone); what it leaves is what the
    client connection is sent. *)
Theorem X23_short_circuit_passes_response_handler `{NetURL} `{ErrorText}
    (p : Proxy) (session : Z) (req req' : Request) (hResp : Response)
    (hq : Z -> Request -> Request * option Response)
    (hr : Z -> Request -> Response -> Response) (s : Hijacked) :
  HandleRequest p = Some hq ->
  HandleResponse p = Some hr ->
  hq session req = (req', Some hResp) ->
  connErr (clientConn s) = None ->
  ServeHTTP_plaintext p (Some session) req s
  = ({| upstream := upstream s; wrt := wrt s;
        clientConn :=
          {| written := written (clientConn s) ++ [Forwarded (hr session req hResp)];
             connErr := None |} |}, Val tt).
Proof.
  intros Hq Hr Hhq Hopen. unfold ServeHTTP_plaintext.
  rewrite (forwardReq_handled p hq session req (RequestURI req) (upstream s) Hq), Hhq.
  unfold forwardResp, Conn_Write. by rewrite Hr, Hopen.
Qed.

Lemma X23_short_circuit_witness :
  ServeHTTP_plaintext (H := permissiveURL) (H0 := plainErrors) taggingProxy (Some 7)
    plainRequest (hijacked quietUpstream)
  = ({| upstream := quietUpstream; wrt := openConn;
        clientConn :=
          {| written :=
               [Forwarded {| StatusCode := 500;
                             Resp_Header := Header_Set ∅ "Seen-Host" "blocked.example" |}];
             connErr := None |} |}, Val tt).
Proof.
  apply (X23_short_circuit_passes_response_handler (H := permissiveURL)
           (H0 := plainErrors) taggingProxy 7 plainRequest
           (fst (addHeaderAndBlock 7 plainRequest))
           {| StatusCode := 500; Resp_Header := ∅ |}
           addHeaderAndBlock recordHost (hijacked quietUpstream)); reflexivity.
Defined.



(** ** The comparison of the tests *)

Lemma bytes_Equal_eq (a b : list byte) : bytes_Equal a b = true <-> a = b.
Proof.
  revert b. induction a as [| x a IH]; intros [| y b]; cbn; try done.
  rewrite andb_true_iff, Z.eqb_eq, IH. split; [by intros [-> ->] | by intros [= -> ->]].
Qed.

(** X25.  compareWebsocketFragments decides equality: it answers true
    exactly when both pointers are nil, or both fragments agree on every
    field, the key included also on unmasked fragments. *)
Theorem X25_compareWebsocketFragments_decides_equality
    (a b : option WebsocketFragment) :
  compareWebsocketFragments a b = true <-> a = b.
Proof.
  destruct a as [[f1 r1 r2 r3 op m n k d] |], b as [[f1' r1' r2' r3' op' m' n' k' d'] |];
    cbn; try done.
  destruct (Bool.eqb_spec f1 f1'); cbn; [| split; [done | by intros [= ?]]].
  destruct (Bool.eqb_spec r1 r1'); cbn; [| split; [done | by intros [= ?]]].
  destruct (Bool.eqb_spec r2 r2'); cbn; [| split; [done | by intros [= ?]]].
  destruct (Bool.eqb_spec r3 r3'); cbn; [| split; [done | by intros [= ?]]].
  destruct (Z.eqb_spec op op'); cbn; [| split; [done | by intros [= ?]]].
  destruct (Bool.eqb_spec m m'); cbn; [| split; [done | by intros [= ?]]].
  destruct (Z.eqb_spec n n'); cbn; [| split; [done | by intros [= ?]]].
  destruct (bytes_Equal k k') eqn:Hk; cbn.
  - apply bytes_Equal_eq in Hk.
    destruct (bytes_Equal d d') eqn:Hd; cbn.
    + apply bytes_Equal_eq in Hd. by subst.
    + split; [done |]. intros [= ? ? ? ? ? ? ? ? Hdd].
      apply bytes_Equal_eq in Hdd. congruence.
  - split; [done |]. intros [= ? ? ? ? ? ? ? Hkk ?].
    apply bytes_Equal_eq in Hkk. congruence.
Qed.

(** ** The key sent upstream *)

(** X26.  generateWebSocketKey returns twenty-four characters, the base64
    text of sixteen bytes, ending in two padding signs; it takes sixteen
    bytes from the random source and touches neither connection. *)
Theorem X26_generateWebSocketKey_shape (n : Net) :
  exists key,
    snd (generateWebSocketKey n) = Val key /\
    String.length key = 24%nat /\
    String.get 22 key = Some "="%char /\ String.get 23 key = Some "="%char /\
    entropy (fst (generateWebSocketKey n)) = drop 16 (entropy n) /\
    toClient (fst (generateWebSocketKey n)) = toClient n /\
    toTarget (fst (generateWebSocketKey n)) = toTarget n.
Proof.
  unfold generateWebSocketKey. cbn [fst snd entropy toClient toTarget].
  assert (Hlen : length (take 16 (entropy n ++ replicate 16 0)) = 16%nat).
  { rewrite length_take, length_app, length_replicate. lia. }
  destruct (take 16 (entropy n ++ replicate 16 0))
    as [| b0 [| b1 [| b2 [| b3 [| b4 [| b5 [| b6 [| b7 [| b8 [| b9 [| b10 [| b11
       [| b12 [| b13 [| b14 [| b15 [| b16 l]]]]]]]]]]]]]]]]]; try done.
  eexists. split; [reflexivity |]. cbn [EncodeToString]. repeat split; reflexivity.
Qed.

(** ** Frames cut short *)

Lemma local_ret {A} (a : A) : local (ret a).
Proof. intros rd rd' a' more [= <- <-]. reflexivity. Qed.

Lemma local_lift {A} (r : res A) : local (lift r).
Proof. intros rd rd' a more [= <- ->]. reflexivity. Qed.

Lemma local_ReadByte : local ReadByte.
Proof.
  intros [src e] rd' a more. unfold ReadByte. cbn.
  destruct src as [| c rest]; [done |]. by intros [= <- <-].
Qed.

Lemma local_bind {A C} (m : M Reader A) (k : A -> M Reader C) :
  local m -> (forall a, local (k a)) -> local (bind m k).
Proof.
  intros Hm Hk rd rd' c more. unfold bind.
  destruct (m rd) as [rd1 [a | e | p]] eqn:Hmrd; [| done | done].
  intros Hka. rewrite (Hm rd rd1 a more Hmrd).
  pose proof (Hk a rd1 rd' c more Hka) as Hext. destruct rd1. exact Hext.
Qed.

Lemma local_readLenn (n : nat) (lenn : list byte) : local (readLenn n lenn).
Proof.
  revert lenn. induction n as [| n IH]; intros lenn; cbn [readLenn].
  - apply local_ret.
  - apply local_bind; [apply local_ReadByte | intros l; apply IH].
Qed.

Lemma local_readKey (n i : nat) (key : list byte) : local (readKey n i key).
Proof.
  revert i key. induction n as [| n IH]; intros i key; cbn [readKey].
  - apply local_ret.
  - apply local_bind; [apply local_ReadByte | intros k; apply IH].
Qed.

Lemma readData_loop_local (payloadLength : Z) (src data more : list byte) (i : Z)
    (e : error) (rd' : Reader) (d : list byte) :
  readData_loop payloadLength i data src e = (rd', Val d) ->
  readData_loop payloadLength i data (src ++ more) e
  = ({| pending := pending rd' ++ more; srcErr := srcErr rd' |}, Val d).
Proof.
  revert data i. induction src as [| c src IH]; intros data i; cbn [readData_loop app].
  - destruct (Z.ltb_spec i payloadLength) as [Hlt | Hge]; [done |].
    intros [= <- <-]. destruct more; cbn [readData_loop];
      (destruct (Z.ltb_spec i payloadLength); [lia | done]).
  - destruct (Z.ltb_spec i payloadLength) as [Hlt | Hge]; [apply IH |].
    by intros [= <- <-].
Qed.

Lemma local_readData (payloadLength : Z) : local (readData payloadLength).
Proof.
  intros [src e] rd' d more. unfold readData. cbn [pending srcErr].
  apply readData_loop_local.
Qed.

Lemma local_ReadWebsocketFragment : local ReadWebsocketFragment.
Proof.
  rewrite ReadWebsocketFragment_stages.
  apply local_bind; [apply local_ReadByte |]. intros b0.
  apply local_bind; [apply local_ReadByte |]. intros b1.
  apply local_bind.
  { unfold readLength. destruct (Z.land b1 127 =? 126).
    - apply local_bind; [apply local_ReadByte |]. intros l1.
      apply local_bind; [apply local_ReadByte |]. intros l2. apply local_lift.
    - destruct (Z.land b1 127 =? 127); [| apply local_ret].
      apply local_bind; [apply local_readLenn |]. intros lenn. apply local_lift. }
  intros n. apply local_bind.
  { unfold readMaskKey. destruct (negb _); [apply local_readKey | apply local_ret]. }
  intros key. apply local_bind; [apply local_readData |]. intros data.
  apply local_bind; [apply local_lift |]. intros d. apply local_ret.
Qed.

Lemma Read_truncated (f : WebsocketFragment) (front back : list byte) (e : error) :
  well_formed f ->
  fst (encode f) = front ++ back ->
  back <> [] ->
  ReadWebsocketFragment {| pending := front; srcErr := e |}
  = ({| pending := []; srcErr := e |}, Err e).
Proof.
  intros Hwf Hcut Hback.
  pose proof (reads_ReadWebsocketFragment (fun _ => True)
                {| pending := front; srcErr := e |}) as Hreads.
  assert (Htrue : Forall (fun _ : Z => True) front) by (apply Forall_forall; done).
  specialize (Hreads Htrue).
  destruct (ReadWebsocketFragment {| pending := front; srcErr := e |})
    as [rd' [g | e' | p]] eqn:Hread; [| | done].
  - exfalso.
    pose proof (local_ReadWebsocketFragment _ _ _ back Hread) as Hext.
    cbn [pending srcErr] in Hext. rewrite <- Hcut in Hext.
    pose proof (Read_well_formed f [] e Hwf) as Hfull.
    rewrite app_nil_r in Hfull. rewrite Hfull in Hext.
    injection Hext as Hpend _ _. symmetry in Hpend.
    apply app_eq_nil in Hpend. tauto.
  - destruct Hreads as (-> & Hnil & Herr). cbn in Herr.
    destruct rd' as [pend err]. cbn in *. by subst.
Qed.

(** X27.  A frame cut short is never taken for a frame.  On any proper
    prefix of the encoding of a well-formed fragment, ReadWebsocketFragment
    reads to the end of the source and returns the error the source
    reports there: io.EOF on a stream that ended. *)
Theorem X27_truncated_frame_is_an_error (f : WebsocketFragment)
    (front back : list byte) (e : error) :
  well_formed f ->
  fst (encode f) = front ++ back ->
  back <> [] ->
  ReadWebsocketFragment {| pending := front; srcErr := e |}
  = ({| pending := []; srcErr := e |}, Err e).
Proof. apply Read_truncated. Qed.

Lemma X27_truncated_frame_witness :
  ReadWebsocketFragment {| pending := take 9 helloBytes; srcErr := EOF |}
  = ({| pending := []; srcErr := EOF |}, Err EOF).
Proof.
  apply (X27_truncated_frame_is_an_error helloFrame (take 9 helloBytes)
           (drop 9 helloBytes) EOF).
  - apply helloFrame_well_formed.
  - reflexivity.
  - discriminate.
Defined.

(** X28.  The pump drops a trailing frame that was cut short: when the
    source ends inside the encoding of a well-formed fragment, the bytes
    that did arrive are consumed, nothing is written to the sink, and the
    pump goes on turning on the exhausted source. *)
Theorem X28_pump_drops_truncated_frame {W} `{Writer W} (f : WebsocketFragment)
    (front back : list byte) (dst : W) (handler : Handler) (turns : nat) :
  well_formed f ->
  fst (encode f) = front ++ back ->
  back <> [] ->
  interceptWebsocket (S turns) dst (NewReader front) handler
  = Spinning (NewReader [], dst).
Proof.
  intros Hwf Hcut Hback. unfold interceptWebsocket.
  destruct front as [| c front]; [apply interceptWebsocket_loop_EOF |].
  cbn [interceptWebsocket_loop].
  assert (Hturn : interceptWebsocket_turn handler (NewReader (c :: front), dst)
                  = ((NewReader [], dst), Val Continue)).
  { unfold interceptWebsocket_turn, NewReader. cbn [Peek1 pending].
    by rewrite (Read_truncated f (c :: front) back EOF Hwf Hcut Hback). }
  rewrite Hturn. apply interceptWebsocket_loop_EOF.
Qed.

Lemma X28_pump_drops_truncated_frame_witness :
  interceptWebsocket 5 ([] : Buffer) (NewReader (take 9 helloBytes)) None
  = Spinning (NewReader [], []).
Proof.
  apply (X28_pump_drops_truncated_frame helloFrame (take 9 helloBytes)
           (drop 9 helloBytes) ([] : Buffer) None 4).
  - apply helloFrame_well_formed.
  - reflexivity.
  - discriminate.
Defined.

(** ** The redacting handler of the example *)

Example ReplaceAll_passwords :
  ReplaceAll (bytes_of_string "my password: passwordpass") forbiddenWord redactedForm
  = bytes_of_string "my xxxxx: xxxxxpass".
Proof. reflexivity. Qed.

Section Redaction.

Context (old new : list byte).
Hypothesis old_not_empty : old <> [].
Hypothesis new_not_empty : new <> [].
Hypothesis disjoint : forall x, In x new -> ~ In x old.

Lemma ReplaceAll_from_drop (skip : nat) (s : list byte) :
  ReplaceAll_from skip s old new = ReplaceAll (drop skip s) old new.
Proof.
  revert skip. induction s as [| c s IH]; intros [| skip]; try reflexivity.
  cbn [ReplaceAll_from drop]. apply IH.
Qed.

Lemma ReplaceAll_cons (c : byte) (s : list byte) :
  ReplaceAll (c :: s) old new =
  if HasPrefix (c :: s) old
  then new ++ ReplaceAll (drop (length old - 1) s) old new
  else c :: ReplaceAll s old new.
Proof.
  unfold ReplaceAll at 1. cbn [ReplaceAll_from].
  destruct (HasPrefix (c :: s) old); [| reflexivity].
  by rewrite ReplaceAll_from_drop.
Qed.

Lemma HasPrefix_ReplaceAll (t s : list byte) :
  (forall x, In x t -> ~ In x new) ->
  HasPrefix (ReplaceAll s old new) t = true -> HasPrefix s t = true.
Proof.
  revert s. induction t as [| p t IH]; intros s Ht; [by destruct s |].
  destruct s as [| c s]; [done |].
  rewrite ReplaceAll_cons.
  destruct (HasPrefix (c :: s) old) eqn:Hmatch.
  - destruct new as [| n0 new']; [done |]. cbn [app HasPrefix].
    intros Hp. apply andb_prop in Hp as [Hn _]. apply Z.eqb_eq in Hn. subst n0.
    exfalso. apply (Ht p); by left.
  - cbn [HasPrefix]. intros Hp. apply andb_prop in Hp as [Hc Hrest].
    rewrite Hc. cbn [andb]. apply IH; [| done].
    intros x Hx. apply Ht. by right.
Qed.

Lemma Contains_after_new (front rest : list byte) :
  (forall x, In x front -> ~ In x old) ->
  Contains (front ++ rest) old = Contains rest old.
Proof.
  intros Hfront. induction front as [| n front IH]; [done |].
  cbn [app Contains].
  destruct old as [| o old'] eqn:Hold; [done |]. cbn [HasPrefix].
  destruct (Z.eqb_spec n o) as [-> | Hne].
  - exfalso. apply (Hfront o); by left.
  - cbn [andb orb]. rewrite <- Hold in *. apply IH.
    intros x Hx. apply Hfront. by right.
Qed.

Lemma Contains_ReplaceAll_bounded (n : nat) (s : list byte) :
  (length s <= n)%nat -> Contains (ReplaceAll s old new) old = false.
Proof.
  revert s. induction n as [| n IH]; intros s Hlen.
  - destruct s; [| cbn in Hlen; lia]. cbn. by destruct old.
  - destruct s as [| c s]; [cbn; by destruct old |].
    cbn [length] in Hlen. rewrite ReplaceAll_cons.
    destruct (HasPrefix (c :: s) old) eqn:Hmatch.
    + rewrite Contains_after_new by exact disjoint.
      apply IH. rewrite length_drop. lia.
    + cbn [Contains]. rewrite (IH s) by lia. rewrite orb_false_r.
      destruct (HasPrefix (c :: ReplaceAll s old new) old) eqn:Hp; [| done].
      assert (Hin : HasPrefix (ReplaceAll (c :: s) old new) old = true)
        by (by rewrite ReplaceAll_cons, Hmatch).
      apply HasPrefix_ReplaceAll in Hin; [congruence |].
      intros x Hx Hx'. by apply (disjoint x).
Qed.

Lemma Contains_ReplaceAll (s : list byte) :
  Contains (ReplaceAll s old new) old = false.
Proof. by apply (Contains_ReplaceAll_bounded (length s)). Qed.

End Redaction.

Lemma redaction_disjoint (x : Z) : In x redactedForm -> ~ In x forbiddenWord.
Proof.
  revert x. apply List.Forall_forall.
  repeat constructor; intros Hf; vm_compute in Hf; intuition discriminate.
Qed.

Lemma redactingHandler_returns (frag : WebsocketFragment) :
  exists g, redactingHandler frag = Some g /\ Key g = Key frag /\
            MaskBit g = MaskBit frag /\ FinBit g = FinBit frag /\
            OpCode g = OpCode frag.
Proof.
  unfold redactingHandler.
  destruct (FinBit frag && (OpCode frag =? 1)); [| eauto 10].
  destruct (Contains (Data frag) forbiddenWord); eauto 10.
Qed.

(** X29.  The handler of the example redacts and keeps the fragment
    consistent.  It never returns nil and leaves flags, opcode and key as
    they are; a fragment that is not a final text fragment is returned
    unchanged; the data of a final text fragment no longer contains the
    forbidden word; and a payload length that was the length of the data
    still is. *)
Theorem X29_redactingHandler (frag : WebsocketFragment) :
  exists g,
    redactingHandler frag = Some g /\
    Key g = Key frag /\ MaskBit g = MaskBit frag /\
    FinBit g = FinBit frag /\ OpCode g = OpCode frag /\
    (FinBit frag && (OpCode frag =? 1) = false -> g = frag) /\
    (FinBit frag && (OpCode frag =? 1) = true ->
     Contains (Data g) forbiddenWord = false) /\
    (len (Data frag) = PayloadLength frag -> len (Data g) = PayloadLength g).
Proof.
  unfold redactingHandler.
  destruct (FinBit frag && (OpCode frag =? 1)) eqn:Htext.
  - destruct (Contains (Data frag) forbiddenWord) eqn:Hword.
    + eexists. split; [reflexivity |]. cbn.
      repeat (split; [done |]). split; [| done].
      intros _. apply Contains_ReplaceAll; [done | done | apply redaction_disjoint].
    + exists frag. repeat (split; [done |]). done.
  - exists frag. repeat (split; [done |]). done.
Qed.

Lemma interceptWebsocket_turn_keeps_key {W} `{Writer W}
    (h : WebsocketFragment -> option WebsocketFragment) (st : Reader * W) :
  (forall g, exists g', h g = Some g' /\ Key g' = Key g) ->
  exists st', interceptWebsocket_turn (Some h) st = (st', Val Continue).
Proof.
  intros Hh. destruct st as [scanner dst]. unfold interceptWebsocket_turn.
  destruct (match Peek1 scanner with (_, Err e) => bool_decide (e = EOF) | _ => false end);
    [eauto |].
  pose proof (reads_ReadWebsocketFragment (fun _ => True) scanner) as Hreads.
  assert (Htrue : Forall (fun _ : Z => True) (pending scanner))
    by (apply Forall_forall; done).
  specialize (Hreads Htrue).
  destruct (ReadWebsocketFragment scanner) as [scanner' [g | e | p]]; [| eauto | done].
  destruct Hreads as ((Hkey & _) & _).
  destruct (Hh g) as (g' & -> & Hk). rewrite <- Hk in Hkey.
  destruct (Write_key4_returns g' dst Hkey) as [dst' [-> | ->]]; eauto.
Qed.

(** X30.  A handler that never returns nil and leaves the key of the
    fragment alone cannot stop the pump: whatever the source delivers and
    whatever else the handler changes, the pump neither returns nor
    panics. *)
Theorem X30_pump_with_key_keeping_handler {W} `{Writer W}
    (h : WebsocketFragment -> option WebsocketFragment)
    (turns : nat) (dst : W) (src : Reader) :
  (forall g, exists g', h g = Some g' /\ Key g' = Key g) ->
  exists st, interceptWebsocket turns dst src (Some h) = Spinning st.
Proof.
  intros Hh. unfold interceptWebsocket. generalize (src, dst) as st.
  induction turns as [| turns IH]; intros st; cbn [interceptWebsocket_loop]; [eauto |].
  destruct (interceptWebsocket_turn_keeps_key h st Hh) as [st' ->]. apply IH.
Qed.

Lemma X30_pump_with_key_keeping_handler_witness :
  exists st,
    interceptWebsocket 3 ([] : Buffer) (NewReader helloBytes) (Some redactingHandler)
    = Spinning st.
Proof.
  apply (X30_pump_with_key_keeping_handler redactingHandler 3 ([] : Buffer)
           (NewReader helloBytes)).
  intros g. destruct (redactingHandler_returns g) as (g' & Hg & Hk & _). eauto.
Defined.
